(** * Route knowledge base and mode-penalised Dijkstra search

    A shallow embedding of [Actividad-2.py]: the [KnowledgeBase] class
    (an edge dictionary with two inference rules) and the [dijkstra]
    function (a lazy-deletion Dijkstra over (node, previous mode) states,
    driven by [heapq]).

    Modelling choices:
    - a Python [dict] is an insertion-ordered association list with unique
      keys ([dict_set] overwrites in place or appends);
    - numbers are Python's: an [int] is an integer of [Z], a [float] is
      a binary64 value of the standard library's [SpecFloat]; [+] rounds
      as the machine does and raises [OverflowError] where Python does;
    - exceptions are explicit: fallible operations return a [result];
    - the [while] loop of [dijkstra] takes a fuel argument, since the
      source loop need not terminate on negative cycles;
    - the methods of [KnowledgeBase] pass the object state explicitly. *)

From Stdlib Require Import List String Ascii Bool Arith PeanoNat Lia.
From Stdlib Require Import ZArith QArith Permutation OrdersEx Sorted.
From Stdlib Require Import SpecFloat.
Import ListNotations.

Local Open Scope string_scope.
Local Open Scope list_scope.
Local Open Scope Z_scope.

(** ** Exceptions and fallible computations *)

Inductive exn : Type :=
| KeyError
| TypeError
| IndexError
| OverflowError.

Inductive result (A : Type) : Type :=
| Ok (a : A)
| Raise (e : exn).

Arguments Ok {A} a.
Arguments Raise {A} e.

Definition bind {A B : Type} (c : result A) (k : A -> result B) : result B :=
  match c with
  | Ok a => k a
  | Raise e => Raise e
  end.

Notation "x <- c ;; k" := (bind c (fun x => k))
  (at level 61, c at next level, right associativity).

(** ** Python numbers: [int] and [float] *)

Inductive pynum : Type :=
| PInt (z : Z)
| PFloat (f : spec_float).

(** The binary64 format. *)
Definition prec : Z := 53.
Definition emax : Z := 1024.

(** [float(z)] for an [int]: the nearest float, ties to even;
    [OverflowError] when that is beyond the largest float. *)
Definition float_of_int (z : Z) : result spec_float :=
  match binary_normalize prec emax z 0 false with
  | S754_infinity _ => Raise OverflowError
  | f => Ok f
  end.

(** The float a decimal literal [n/d] denotes: the nearest float to the
    quotient ([1.5] is [float_lit 15 10], [3.0] is [float_lit 3 1]). *)
Definition float_lit (n d : Z) : spec_float :=
  SFdiv prec emax (binary_normalize prec emax n 0 false)
                  (binary_normalize prec emax d 0 false).

Definition fl (n d : Z) : pynum := PFloat (float_lit n d).

(** [0.0] and [float("inf")] *)
Definition zero_float : pynum := PFloat (S754_zero false).
Definition py_inf : pynum := PFloat (S754_infinity false).

(** [x + y]: exact on two [int]s; otherwise an [int] operand is converted
    and the floats are added with rounding. *)
Definition py_add (x y : pynum) : result pynum :=
  match x, y with
  | PInt a, PInt b => Ok (PInt (a + b))
  | PFloat f, PFloat g => Ok (PFloat (SFadd prec emax f g))
  | PInt a, PFloat g =>
      f <- float_of_int a ;; Ok (PFloat (SFadd prec emax f g))
  | PFloat f, PInt b =>
      g <- float_of_int b ;; Ok (PFloat (SFadd prec emax f g))
  end.

(** Python compares an [int] with a [float] by their exact values. *)
Definition compare_int_float (a : Z) (g : spec_float) : option comparison :=
  match g with
  | S754_nan => None
  | S754_infinity s => Some (if s then Gt else Lt)
  | S754_zero _ => Some (a ?= 0)
  | S754_finite s m e =>
      let v := cond_Zopp s (Zpos m) in
      Some match e with
           | Zneg k => (a * 2 ^ Zpos k ?= v)
           | _ => (a ?= v * 2 ^ e)
           end
  end.

(** The order of two numbers; [None] when one of them is a NaN. *)
Definition py_compare (x y : pynum) : option comparison :=
  match x, y with
  | PInt a, PInt b => Some (a ?= b)
  | PFloat f, PFloat g => SFcompare f g
  | PInt a, PFloat g => compare_int_float a g
  | PFloat f, PInt b => option_map CompOpp (compare_int_float b f)
  end.

(** [x == y], [x < y] and [x <= y] on numbers *)
Definition py_eqb (x y : pynum) : bool :=
  match py_compare x y with
  | Some Eq => true
  | _ => false
  end.

Definition py_ltb (x y : pynum) : bool :=
  match py_compare x y with
  | Some Lt => true
  | _ => false
  end.

Definition py_leb (x y : pynum) : bool :=
  match py_compare x y with
  | Some (Lt | Eq) => true
  | _ => false
  end.

(** ** Keys with a boolean equality (Python's [==] on hashable keys) *)

Class Eqb (K : Type) : Type := { eqb : K -> K -> bool }.

#[export] Instance Eqb_string : Eqb string := {| eqb := String.eqb |}.

#[export] Instance Eqb_pair {A B : Type} `{Eqb A} `{Eqb B} : Eqb (A * B) :=
  {| eqb := fun x y => eqb (fst x) (fst y) && eqb (snd x) (snd y) |}.

#[export] Instance Eqb_option {A : Type} `{Eqb A} : Eqb (option A) :=
  {| eqb := fun x y =>
       match x, y with
       | None, None => true
       | Some a, Some b => eqb a b
       | _, _ => false
       end |}.

(** The boolean equality decides equality. *)
Class EqbLaws (K : Type) `{Eqb K} : Prop := {
  eqb_true_iff : forall x y : K, eqb x y = true <-> x = y
}.

(** ** Python dictionaries: insertion-ordered association lists *)

Section Dict.
Context {K V : Type} `{Eqb K}.

Definition dict : Type := list (K * V).

Definition keys (d : dict) : list K := map fst d.

(** [d.get(k)], also the model of [d[k]] where the key is known present *)
Fixpoint dict_get (k : K) (d : dict) : option V :=
  match d with
  | [] => None
  | (k', v) :: d' => if eqb k k' then Some v else dict_get k d'
  end.

(** [k in d] *)
Definition dict_mem (k : K) (d : dict) : bool :=
  match dict_get k d with
  | Some _ => true
  | None => false
  end.

(** [d[k] = v]: an existing key keeps its position, a new key is appended *)
Fixpoint dict_set (k : K) (v : V) (d : dict) : dict :=
  match d with
  | [] => [(k, v)]
  | (k', v') :: d' =>
      if eqb k k' then (k', v) :: d' else (k', v') :: dict_set k v d'
  end.

Definition dict_wf (d : dict) : Prop := NoDup (keys d).
End Dict.

Arguments dict K V : clear implicits.

(** ** 1. The KnowledgeBase class *)

Record props : Type := mkProps {
  mode : string;
  time : pynum;
  cost : pynum
}.

Definition edge_key : Type := (string * string)%type.

Record KnowledgeBase : Type := mkKB {
  edges : dict edge_key props
}.

(** [KnowledgeBase()] *)
Definition KnowledgeBase_init : KnowledgeBase := mkKB [].

(** [add_edge(self, u, v, mode, time, cost, bidirectional=True)] *)
Definition add_edge (u v m : string) (t c : pynum) (bidirectional : bool)
    (self : KnowledgeBase) : KnowledgeBase :=
  let e1 := dict_set (u, v) (mkProps m t c) (edges self) in
  if bidirectional then mkKB (dict_set (v, u) (mkProps m t c) e1)
  else mkKB e1.

(** The list the generator [neighbors(self, node)] yields, in dictionary
    order. *)
Fixpoint neighbors_of (d : dict edge_key props) (node : string)
    : list (string * props) :=
  match d with
  | [] => []
  | ((a, b), p) :: d' =>
      if String.eqb a node then (b, p) :: neighbors_of d' node
      else neighbors_of d' node
  end.

(** [neighbors(self, node)]: reads the object, returns it as it was. *)
Definition neighbors (self : KnowledgeBase) (node : string)
    : list (string * props) * KnowledgeBase :=
  (neighbors_of (edges self) node, self).

(** An element of [new_edges]: the tuple [(u, v, m, t, c)]. *)
Definition new_edge : Type :=
  (string * string * string * pynum * pynum)%type.

(** The second loop of both rules: [for u, v, m, t, c in new_edges:
    self.add_edge(u, v, m, t, c, bidirectional=...)] *)
Definition add_all (bidirectional : bool) (new_edges : list new_edge)
    (self : KnowledgeBase) : KnowledgeBase :=
  fold_left
    (fun kb (e : new_edge) =>
       let '(u, v, m, t, c) := e in add_edge u v m t c bidirectional kb)
    new_edges self.

(** First loop of [make_bidirectional], over the snapshot
    [list(self.edges.items())], testing membership in [self.edges]. *)
Fixpoint symmetry_new_edges (snapshot d : dict edge_key props)
    : list new_edge :=
  match snapshot with
  | [] => []
  | ((u, v), p) :: rest =>
      if negb (dict_mem (v, u) d)
      then (v, u, mode p, time p, cost p) :: symmetry_new_edges rest d
      else symmetry_new_edges rest d
  end.

Definition make_bidirectional (self : KnowledgeBase) : KnowledgeBase :=
  let new_edges := symmetry_new_edges (edges self) (edges self) in
  add_all false new_edges self.

(** Inner loop of [add_transfers] for a fixed outer item [((a, b), props1)]. *)
Fixpoint transfer_inner (a b : string) (props1 : props)
    (snapshot d : dict edge_key props) (penalty_time : pynum)
    : list new_edge :=
  match snapshot with
  | [] => []
  | ((c, d'), props2) :: rest =>
      if String.eqb a c && negb (String.eqb b d')
         && negb (String.eqb (mode props1) (mode props2))
      then
        if negb (dict_mem (b, d') d)
        then (b, d', "walk", penalty_time, zero_float) ::
             transfer_inner a b props1 rest d penalty_time
        else transfer_inner a b props1 rest d penalty_time
      else transfer_inner a b props1 rest d penalty_time
  end.

Fixpoint transfer_new_edges (outer snapshot d : dict edge_key props)
    (penalty_time : pynum) : list new_edge :=
  match outer with
  | [] => []
  | ((a, b), props1) :: rest =>
      transfer_inner a b props1 snapshot d penalty_time ++
      transfer_new_edges rest snapshot d penalty_time
  end.

(** [add_transfers(self, penalty_time=3.0)] *)
Definition add_transfers (penalty_time : pynum) (self : KnowledgeBase)
    : KnowledgeBase :=
  let new_edges :=
    transfer_new_edges (edges self) (edges self) (edges self) penalty_time in
  add_all true new_edges self.

(** ** 2. Python lists used as arrays, and the [heapq] module

    [heappush], [heappop], [_siftdown] and [_siftup] follow the standard
    library's [heapq]: a binary min-heap stored in a list, which compares
    items with [<] only. *)

Section Heapq.
Context {A : Type}.

(** Comparison [x < y] of two heap items; it may raise. *)
Variable lt : A -> A -> result bool.

(** [l[i]] *)
Definition list_get (l : list A) (i : nat) : result A :=
  match nth_error l i with
  | Some x => Ok x
  | None => Raise IndexError
  end.

Fixpoint upd (l : list A) (i : nat) (x : A) : list A :=
  match l, i with
  | [], _ => []
  | _ :: t, O => x :: t
  | h :: t, S i' => h :: upd t i' x
  end.

(** [l[i] = x] *)
Definition list_set (l : list A) (i : nat) (x : A) : result (list A) :=
  if (i <? List.length l)%nat then Ok (upd l i x) else Raise IndexError.

(** [l.pop()]: the last element and the list without it *)
Fixpoint list_pop (l : list A) : result (A * list A) :=
  match l with
  | [] => Raise IndexError
  | [x] => Ok (x, [])
  | h :: t => r <- list_pop t ;; Ok (fst r, h :: snd r)
  end.

(** [(pos - 1) >> 1] *)
Definition parent (pos : nat) : nat := Nat.shiftr (pos - 1) 1.

(** The [while pos > startpos] loop of [_siftdown]; [n] bounds the number
    of iterations ([pos <= n] holds at every call, so the case [0] is the
    loop exit). *)
Fixpoint siftdown_loop (n : nat) (heap : list A) (newitem : A)
    (startpos pos : nat) : result (list A) :=
  match n with
  | O => list_set heap pos newitem
  | S n' =>
      if (startpos <? pos)%nat then
        let parentpos := parent pos in
        par <- list_get heap parentpos ;;
        b <- lt newitem par ;;
        if b : bool then
          heap' <- list_set heap pos par ;;
          siftdown_loop n' heap' newitem startpos parentpos
        else list_set heap pos newitem
      else list_set heap pos newitem
  end.

Definition _siftdown (heap : list A) (startpos pos : nat) : result (list A) :=
  newitem <- list_get heap pos ;;
  siftdown_loop pos heap newitem startpos pos.

(** The [while childpos < endpos] loop of [_siftup]: returns the heap and
    the final [pos]; [n] bounds the iterations ([endpos - pos <= n]). *)
Fixpoint siftup_loop (n : nat) (heap : list A) (endpos pos : nat)
    : result (list A * nat) :=
  match n with
  | O => Ok (heap, pos)
  | S n' =>
      let childpos := (2 * pos + 1)%nat in
      if (childpos <? endpos)%nat then
        let rightpos := (childpos + 1)%nat in
        c <- (if (rightpos <? endpos)%nat then
                l <- list_get heap childpos ;;
                r <- list_get heap rightpos ;;
                b <- lt l r ;;
                Ok (if negb b then rightpos else childpos)
              else Ok childpos) ;;
        x <- list_get heap c ;;
        heap' <- list_set heap pos x ;;
        siftup_loop n' heap' endpos c
      else Ok (heap, pos)
  end.

Definition _siftup (heap : list A) (pos : nat) : result (list A) :=
  let endpos := List.length heap in
  let startpos := pos in
  newitem <- list_get heap pos ;;
  r <- siftup_loop endpos heap endpos pos ;;
  heap' <- list_set (fst r) (snd r) newitem ;;
  _siftdown heap' startpos (snd r).

Definition heappush (heap : list A) (item : A) : result (list A) :=
  let heap' := heap ++ [item] in
  _siftdown heap' 0 (List.length heap' - 1)%nat.

Definition heappop (heap : list A) : result (A * list A) :=
  r <- list_pop heap ;;
  let lastelt := fst r in
  let heap' := snd r in
  match heap' with
  | [] => Ok (lastelt, heap')
  | _ :: _ =>
      returnitem <- list_get heap' 0 ;;
      heap1 <- list_set heap' 0 lastelt ;;
      heap2 <- _siftup heap1 0 ;;
      Ok (returnitem, heap2)
  end.
End Heapq.

(** ** 3. The search: [dijkstra] *)

(** A queue item: the tuple [(acc, node, prev_mode, path)]. *)
Record entry : Type := mkEntry {
  acc : pynum;
  node : string;
  prev_mode : option string;
  path : list string
}.

(** [x < y] on lists of strings: the first differing position decides *)
Fixpoint list_ltb (x y : list string) : bool :=
  match x, y with
  | [], [] => false
  | [], _ :: _ => true
  | _ :: _, [] => false
  | a :: x', b :: y' => if String.eqb a b then list_ltb x' y' else String.ltb a b
  end.

(** [x < y] where each side is [None] or a string: ordering [None]
    against a string raises [TypeError]. Only called on unequal values. *)
Definition mode_lt (x y : option string) : result bool :=
  match x, y with
  | Some a, Some b => Ok (String.ltb a b)
  | _, _ => Raise TypeError
  end.

(** Tuple comparison [x < y]: the first position where the two tuples
    differ (by [==]) decides, by [<] on that position. (Two distinct
    queue items never share their first component as one object, so the
    identity shortcut of [==] plays no part.) *)
Definition entry_lt (x y : entry) : result bool :=
  if negb (py_eqb (acc x) (acc y)) then Ok (py_ltb (acc x) (acc y))
  else if negb (String.eqb (node x) (node y))
  then Ok (String.ltb (node x) (node y))
  else if negb (eqb (prev_mode x) (prev_mode y))
  then mode_lt (prev_mode x) (prev_mode y)
  else Ok (list_ltb (path x) (path y)).

(** Values stored in a [props] dictionary. *)
Inductive pyval : Type :=
| VStr (s : string)
| VNum (n : pynum).

(** [props[k]] *)
Definition props_getitem (p : props) (k : string) : result pyval :=
  if String.eqb k "mode" then Ok (VStr (mode p))
  else if String.eqb k "time" then Ok (VNum (time p))
  else if String.eqb k "cost" then Ok (VNum (cost p))
  else Raise KeyError.

(** [a + b] with [a] a number: a string operand raises [TypeError]. *)
Definition num_add (a : pynum) (b : pyval) : result pynum :=
  match b with
  | VNum n => py_add a n
  | VStr _ => Raise TypeError
  end.

(** Truth value of [prev_mode]: [None] and the empty string are false. *)
Definition truthy (m : option string) : bool :=
  match m with
  | None => false
  | Some EmptyString => false
  | Some (String _ _) => true
  end.

(** [transfer_penalty if prev_mode and prev_mode != next_mode else 0] *)
Definition penalty_of (transfer_penalty : pynum) (prev_mode : option string)
    (next_mode : string) : pynum :=
  if truthy prev_mode && negb (eqb prev_mode (Some next_mode))
  then transfer_penalty else PInt 0.

(** Lines 97-101: the accumulated value of one neighbour edge,
    [acc + base + penalty] added from left to right. *)
Definition new_acc_of (metric : string) (transfer_penalty : pynum)
    (acc : pynum) (prev_mode : option string) (p : props) : result pynum :=
  let next_mode := mode p in
  base <- props_getitem p metric ;;
  let penalty := penalty_of transfer_penalty prev_mode next_mode in
  s <- num_add acc base ;;
  py_add s penalty.

(** The [for neigh, props in kb.neighbors(node)] loop. *)
Fixpoint expand (ns : list (string * props)) (metric : string)
    (transfer_penalty : pynum) (acc : pynum) (prev_mode : option string)
    (path : list string) (pq : list entry) : result (list entry) :=
  match ns with
  | [] => Ok pq
  | (neigh, p) :: rest =>
      new_acc <- new_acc_of metric transfer_penalty acc prev_mode p ;;
      pq' <- heappush entry_lt pq
               (mkEntry new_acc neigh (Some (mode p)) (path ++ [neigh])) ;;
      expand rest metric transfer_penalty acc prev_mode path pq'
  end.

(** How a call ends: it returns the pair [(p, t)], raises, or is cut
    short by the fuel. *)
Inductive outcome : Type :=
| Returned (p : option (list string)) (t : pynum)
| Raised (e : exn)
| OutOfFuel.

Definition state_key : Type := (string * option string)%type.

(** [key in visited and visited[key] <= acc] *)
Definition seen_better (key : state_key) (a : pynum)
    (visited : dict state_key pynum) : bool :=
  match dict_get key visited with
  | Some v => py_leb v a
  | None => false
  end.

(** The [while pq] loop, at most [fuel] iterations. *)
Fixpoint dijkstra_loop (fuel : nat) (kb : KnowledgeBase) (goal metric : string)
    (transfer_penalty : pynum) (pq : list entry)
    (visited : dict state_key pynum) : outcome * KnowledgeBase :=
  match fuel with
  | O => (OutOfFuel, kb)
  | S fuel' =>
      match pq with
      | [] => (Returned None py_inf, kb)
      | _ :: _ =>
          match heappop entry_lt pq with
          | Raise e => (Raised e, kb)
          | Ok (item, pq1) =>
              if String.eqb (node item) goal
              then (Returned (Some (path item)) (acc item), kb)
              else
                let key := (node item, prev_mode item) in
                if seen_better key (acc item) visited
                then dijkstra_loop fuel' kb goal metric transfer_penalty
                       pq1 visited
                else
                  let visited' := dict_set key (acc item) visited in
                  let '(ns, kb') := neighbors kb (node item) in
                  match expand ns metric transfer_penalty (acc item)
                          (prev_mode item) (path item) pq1 with
                  | Raise e => (Raised e, kb')
                  | Ok pq2 =>
                      dijkstra_loop fuel' kb' goal metric transfer_penalty
                        pq2 visited'
                  end
          end
      end
  end.

(** [dijkstra(kb, start, goal, metric="time", transfer_penalty=2.0)] run
    for at most [fuel] iterations of its loop; the second component is the
    knowledge base after the call. *)
Definition dijkstra (fuel : nat) (kb : KnowledgeBase) (start goal : string)
    (metric : string) (transfer_penalty : pynum) : outcome * KnowledgeBase :=
  dijkstra_loop fuel kb goal metric transfer_penalty
    [mkEntry (PInt 0) start None [start]] [].

(** ** 4. The seeded example network of the main program *)

Definition seed_facts : KnowledgeBase :=
  add_edge "Centro" "D" "tram" (PInt 9) (fl 16 10) true
  (add_edge "A" "Centro" "tram" (PInt 10) (fl 17 10) true
  (add_edge "P2" "D" "bus" (PInt 7) (fl 1 1) true
  (add_edge "P1" "P2" "bus" (PInt 8) (fl 11 10) true
  (add_edge "B" "P1" "bus" (PInt 6) (fl 9 10) true
  (add_edge "C" "D" "metro" (PInt 5) (fl 18 10) true
  (add_edge "B" "C" "metro" (PInt 3) (fl 12 10) true
  (add_edge "A" "B" "metro" (PInt 4) (fl 15 10) true
     KnowledgeBase_init))))))).

Definition seed_kb : KnowledgeBase :=
  add_transfers (fl 3 1) (make_bidirectional seed_facts).

(** Knowledge bases used as concrete inputs below. *)

(** Both directions of one connection, entered with different attributes. *)
Definition asym_kb : KnowledgeBase :=
  add_edge "B" "A" "bus" (PInt 6) (fl 9 10) false
  (add_edge "A" "B" "metro" (PInt 4) (fl 15 10) false KnowledgeBase_init).

(** A connection whose mode is the empty string, followed by a bus leg. *)
Definition blank_mode_kb : KnowledgeBase :=
  add_edge "B" "C" "bus" (PInt 1) (PInt 1) true
  (add_edge "A" "B" "" (PInt 1) (PInt 1) true KnowledgeBase_init).

(** One metro connection, A-B. *)
Definition one_line_kb : KnowledgeBase :=
  add_edge "A" "B" "metro" (PInt 4) (fl 15 10) true KnowledgeBase_init.

(** A metro-only network: A-B, B-C and a slow direct A-C. *)
Definition metro_kb : KnowledgeBase :=
  add_edge "A" "C" "metro" (PInt 9) (fl 2 1) true
  (add_edge "B" "C" "metro" (PInt 3) (fl 12 10) true
  (add_edge "A" "B" "metro" (PInt 4) (fl 15 10) true KnowledgeBase_init)).

(** ** 5. Specification-level notions *)

(** [u] and [v] are the two components of the key of a tuple of
    [new_edges]. *)
Definition new_edge_key (e : new_edge) : edge_key :=
  let '(u, v, _, _, _) := e in (u, v).

Definition swap_key (k : edge_key) : edge_key := (snd k, fst k).

(** Two dictionaries hold the same mapping (Python's [==] on [dict]). *)
Definition same_mapping (d1 d2 : dict edge_key props) : Prop :=
  forall k, dict_get k d1 = dict_get k d2.

Definition is_self_loop (item : edge_key * props) : bool :=
  String.eqb (fst (fst item)) (snd (fst item)).

(** No pair of edges leaving one origin towards different destinations by
    different modes is left without an edge between the destinations:
    the transfer rule has nothing to add. *)
Definition transfer_closed (kb : KnowledgeBase) : Prop :=
  forall a b d p1 p2,
    In ((a, b), p1) (edges kb) -> In ((a, d), p2) (edges kb) ->
    b <> d -> mode p1 <> mode p2 -> In (b, d) (keys (edges kb)).

(** Every edge has its reverse, with identical attributes. *)
Definition symmetric_identical (kb : KnowledgeBase) : Prop :=
  forall u v p,
    dict_get (u, v) (edges kb) = Some p ->
    dict_get (v, u) (edges kb) = Some p.

(** The keys the second loop of a rule assigns to. *)
Definition written_keys (bidirectional : bool) (new_edges : list new_edge)
    : list edge_key :=
  flat_map
    (fun e => if bidirectional
              then [new_edge_key e; swap_key (new_edge_key e)]
              else [new_edge_key e])
    new_edges.

(** *** Order properties of a heap array *)

Section HeapOrder.
Context {A : Type} (le : A -> A -> Prop).

(** [heap[parent i] <= heap[i]] at every position [i > 0]. *)
Definition heap_inv (h : list A) : Prop :=
  forall i x y, (0 < i)%nat ->
    nth_error h i = Some x -> nth_error h (parent i) = Some y -> le y x.

(** The heap order everywhere except around position [pos], whose item
    is on the move: pairs that involve [pos] are not constrained, and the
    children of [pos] are above the parent of [pos]. *)
Definition hole_inv (h : list A) (pos : nat) : Prop :=
  (forall i x y, (0 < i)%nat -> i <> pos -> parent i <> pos ->
     nth_error h i = Some x -> nth_error h (parent i) = Some y -> le y x) /\
  (forall c x y, (0 < pos)%nat -> (0 < c)%nat -> parent c = pos ->
     nth_error h c = Some x -> nth_error h (parent pos) = Some y -> le y x).

(** [x] is below every child of position [pos]. *)
Definition below (h : list A) (pos : nat) (x : A) : Prop :=
  forall c y, (0 < c)%nat -> parent c = pos ->
    nth_error h c = Some y -> le x y.
End HeapOrder.

(** 1 when the two items are equal, else 0: the contribution of one
    array cell to the number of occurrences of [y]. *)
Definition ind {A : Type} (dec : forall x y : A, {x = y} + {x <> y})
    (x y : A) : nat :=
  if dec x y then 1%nat else 0%nat.

(** *** Routes and distances *)

(** The number [props[metric]] for the two metrics the search is meant
    for. *)
Definition edge_weight (metric : string) (p : props) : pynum :=
  if String.eqb metric "time" then time p else cost p.

(** [route kb metric tp start nodes v pm c]: [nodes] lists the nodes of a
    walk from [start] to [v] along edges of [kb]; [pm] is the mode of its
    last edge and [c] the accumulated value the search computes along it,
    edge after edge, in machine arithmetic. *)
Inductive route (kb : KnowledgeBase) (metric : string) (tp : pynum)
    (start : string)
    : list string -> string -> option string -> pynum -> Prop :=
| route_start : route kb metric tp start [start] start None (PInt 0)
| route_step nodes u pm c v p c' :
    route kb metric tp start nodes u pm c ->
    In ((u, v), p) (edges kb) ->
    new_acc_of metric tp c pm p = Ok c' ->
    route kb metric tp start (nodes ++ [v]) v (Some (mode p)) c'.

(** [goal] can be reached from [start] along edges of [kb]. *)
Inductive reachable (kb : KnowledgeBase) (start : string) : string -> Prop :=
| reach_refl : reachable kb start start
| reach_step u v :
    reachable kb start u -> In (u, v) (keys (edges kb)) ->
    reachable kb start v.

(** The rational number a finite float stands for. *)
Definition float_value (f : spec_float) : option Q :=
  match f with
  | S754_zero _ => Some 0%Q
  | S754_finite s m e =>
      Some (inject_Z (cond_Zopp s (Zpos m)) * Qpower 2 e)%Q
  | S754_infinity _ | S754_nan => None
  end.

(** The exact value of a number; none for an infinity or a NaN. *)
Definition value (x : pynum) : option Q :=
  match x with
  | PInt z => Some (inject_Z z)
  | PFloat f => float_value f
  end.

(** [plain_path kb metric start nodes v w]: [nodes] is a walk from [start]
    to [v] whose edge weights under [metric] add up to [w], exactly. *)
Inductive plain_path (kb : KnowledgeBase) (metric : string) (start : string)
    : list string -> string -> Q -> Prop :=
| plain_start : plain_path kb metric start [start] start 0%Q
| plain_step nodes u w v p q :
    plain_path kb metric start nodes u w ->
    In ((u, v), p) (edges kb) ->
    value (edge_weight metric p) = Some q ->
    plain_path kb metric start (nodes ++ [v]) v (w + q)%Q.

(** The classical shortest-path distance: [d] is the weight of some walk
    from [start] to [goal], and no walk between them weighs less. This is
    what Dijkstra's algorithm computes on non-negative weights. *)
Definition shortest_distance (kb : KnowledgeBase) (metric : string)
    (start goal : string) (d : Q) : Prop :=
  (exists nodes w, plain_path kb metric start nodes goal w /\ (w == d)%Q) /\
  (forall nodes w, plain_path kb metric start nodes goal w -> (d <= w)%Q).

(** All edges carry the same mode. *)
Definition uniform_mode (kb : KnowledgeBase) : Prop :=
  forall k1 p1 k2 p2,
    In (k1, p1) (edges kb) -> In (k2, p2) (edges kb) -> mode p1 = mode p2.

Definition valid_metric (metric : string) : Prop :=
  metric = "time" \/ metric = "cost".

(** *** Integer weights *)

Definition is_int (x : pynum) : Prop :=
  match x with
  | PInt _ => True
  | PFloat _ => False
  end.

Definition is_float (x : pynum) : Prop :=
  match x with
  | PInt _ => False
  | PFloat _ => True
  end.

(** An [int] that is not negative. *)
Definition nonneg_int (x : pynum) : Prop :=
  match x with
  | PInt z => 0 <= z
  | PFloat _ => False
  end.

(** The integer an [int] holds (and 0 for a float: it is applied to
    numbers known to be [int]s). *)
Definition int_value (x : pynum) : Z :=
  match x with
  | PInt z => z
  | PFloat _ => 0
  end.

(** Every weight under [metric] is an [int]. *)
Definition int_weights (kb : KnowledgeBase) (metric : string) : Prop :=
  forall k p, In (k, p) (edges kb) -> is_int (edge_weight metric p).

(** Every weight under [metric] is a float. *)
Definition float_weights (kb : KnowledgeBase) (metric : string) : Prop :=
  forall k p, In (k, p) (edges kb) -> is_float (edge_weight metric p).

(** Every weight under [metric] is an [int] that is not negative. *)
Definition nonneg_int_weights (kb : KnowledgeBase) (metric : string) : Prop :=
  forall k p, In (k, p) (edges kb) -> nonneg_int (edge_weight metric p).

(** The previous modes a search on [kb] can meet: none at the start, then
    the mode of an edge. *)
Definition known_mode (kb : KnowledgeBase) (pm : option string) : Prop :=
  pm = None \/ exists k p, In (k, p) (edges kb) /\ pm = Some (mode p).

(** Whatever the search adds as a penalty on [kb] is an [int] that is not
    negative: so it is when [tp] is one, and so it is when no penalty is
    ever charged. *)
Definition nonneg_int_penalties (kb : KnowledgeBase) (tp : pynum) : Prop :=
  forall pm k p,
    known_mode kb pm -> In (k, p) (edges kb) ->
    nonneg_int (penalty_of tp pm (mode p)).

(** *** Bookkeeping of the search loop *)

Definition key_of (e : entry) : state_key := (node e, prev_mode e).

(** Items of the queue are ordered by their accumulated value. *)
Definition le_acc (x y : entry) : Prop :=
  int_value (acc x) <= int_value (acc y).

(** Items that have a previous mode: all but the initial one. *)
Definition has_mode (e : entry) : Prop := prev_mode e <> None.

(** The order that holds between any two items: with it the facts on the
    heap operations say that they raise nothing and keep the items. *)
Definition any_order (x y : entry) : Prop := True.

(** Items with a previous mode and an [int] as accumulated value. *)
Definition int_item (e : entry) : Prop := has_mode e /\ is_int (acc e).

(** The item pushed for the neighbour [(x, p)] of a state popped with
    the [int] [a], previous mode [pm] and path [nodes], when weight and
    penalty are [int]s. *)
Definition pushed (metric : string) (tp a : pynum) (pm : option string)
    (nodes : list string) (n : string * props) : entry :=
  mkEntry (PInt (int_value a + int_value (edge_weight metric (snd n))
                 + int_value (penalty_of tp pm (mode (snd n)))))
          (fst n) (Some (mode (snd n))) (nodes ++ [fst n]).

(** The states the search can ever reach. *)
Definition universe (kb : KnowledgeBase) (start : string) : list state_key :=
  (start, None) ::
  map (fun item : edge_key * props =>
         (snd (fst item), Some (mode (snd item)))) (edges kb).

(** A bound on the number of iterations still to run. *)
Definition measure (kb : KnowledgeBase) (start : string)
    (pq : list entry) (visited : dict state_key pynum) : nat :=
  (List.length pq +
   S (List.length (edges kb)) *
     (List.length (universe kb start) - List.length visited))%nat.

(** A number of iterations that always suffices on non-negative [int]
    weights. *)
Definition fuel_bound (kb : KnowledgeBase) : nat :=
  (2 + S (List.length (edges kb)) * S (List.length (edges kb)))%nat.

(** State [k] is reached with value at most [b]: by an item waiting in the
    queue or by a recorded visit. *)
Definition covered (pq : list entry) (visited : dict state_key pynum)
    (k : state_key) (b : Z) : Prop :=
  (exists e, In e pq /\ key_of e = k /\ int_value (acc e) <= b) \/
  (exists v, dict_get k visited = Some v /\ int_value v <= b).

(** The loop invariant of [dijkstra] on non-negative [int] weights. *)
Record search_inv (kb : KnowledgeBase) (start goal metric : string)
    (tp : pynum) (pq : list entry) (visited : dict state_key pynum)
    : Prop := {
  inv_heap : heap_inv le_acc pq;
  inv_modes : Forall has_mode pq \/ List.length pq = 1%nat;
  inv_ints : Forall (fun e => is_int (acc e)) pq;
  inv_visited_ints : forall k v, dict_get k visited = Some v -> is_int v;
  inv_route : forall e, In e pq ->
    route kb metric tp start (path e) (node e) (prev_mode e) (acc e);
  inv_mono : forall k v e,
    dict_get k visited = Some v -> In e pq ->
    int_value v <= int_value (acc e);
  inv_nogoal : forall k v, dict_get k visited = Some v -> fst k <> goal;
  inv_start : covered pq visited (start, None) 0;
  inv_closed : forall n pm v x p,
    dict_get (n, pm) visited = Some v ->
    In ((n, x), p) (edges kb) ->
    covered pq visited (x, Some (mode p))
      (int_value v + int_value (edge_weight metric p)
       + int_value (penalty_of tp pm (mode p)));
  inv_wf : dict_wf visited;
  inv_visited_univ : incl (keys visited) (universe kb start);
  inv_queue_univ : forall e, In e pq -> In (key_of e) (universe kb start)
}.

(** ** 6. The steps of the interactive menu that do not read or print *)

(** [sorted(set(l))] on strings: the distinct elements of [l] in
    increasing lexical order. *)
Fixpoint insert_sorted (s : string) (l : list string) : list string :=
  match l with
  | [] => [s]
  | x :: r =>
      match String_as_OT.compare s x with
      | Lt => s :: l
      | Eq => l
      | Gt => x :: insert_sorted s r
      end
  end.

Definition sorted_set (l : list string) : list string :=
  fold_right insert_sorted [] l.

(** [[u for u, _ in kb.edges.keys()] + [v for _, v in kb.edges.keys()]] *)
Definition station_names (kb : KnowledgeBase) : list string :=
  map fst (keys (edges kb)) ++ map snd (keys (edges kb)).

(** [estaciones = sorted(set(...))], as options 2 and 3 compute it. *)
Definition estaciones (kb : KnowledgeBase) : list string :=
  sorted_set (station_names kb).

(** Option 1, once the five fields are read: the new fact is added in
    both directions and both rules are applied again. *)
Definition menu_add_route (u v m : string) (t c : pynum)
    (kb : KnowledgeBase) : KnowledgeBase :=
  add_transfers (fl 3 1) (make_bidirectional (add_edge u v m t c true kb)).

(** What option 2 answers, once the three fields are read: one of its
    three messages, or the route and total it prints; the last two
    constructors stand for an exception leaving [dijkstra] and for a
    search cut short by the fuel. *)
Inductive reply : Type :=
| EstacionInvalida
| MetricaInvalida
| RutaOptima (ruta : list string) (t : pynum)
| SinRuta
| Excepcion (e : exn)
| SinRespuesta.

Definition menu_query (fuel : nat) (kb : KnowledgeBase)
    (origen destino metric : string) : reply :=
  let est := estaciones kb in
  if negb (existsb (String.eqb origen) est)
     || negb (existsb (String.eqb destino) est)
  then EstacionInvalida
  else if negb (String.eqb metric "time" || String.eqb metric "cost")
  then MetricaInvalida
  else
    match fst (dijkstra fuel kb origen destino metric (fl 2 1)) with
    | Returned (Some (n :: r)) t => RutaOptima (n :: r) t
    | Returned _ _ => SinRuta
    | Raised e => Excepcion e
    | OutOfFuel => SinRespuesta
    end.

(** ** 7. Further specification-level notions *)

(** Every key has its reverse among the keys. *)
Definition sym_keys (kb : KnowledgeBase) : Prop :=
  forall u v, In (u, v) (keys (edges kb)) -> In (v, u) (keys (edges kb)).

(** The attributes of a synthesized transfer edge. *)
Definition walk_props (penalty_time : pynum) : props :=
  mkProps "walk" penalty_time zero_float.

(** [walk kb start nodes v es]: [nodes] lists the nodes of a walk from
    [start] to [v] in [kb], and [es] the attributes of its edges in
    order. *)
Inductive walk (kb : KnowledgeBase) (start : string)
    : list string -> string -> list props -> Prop :=
| walk_start : walk kb start [start] start []
| walk_step nodes u es v p :
    walk kb start nodes u es ->
    In ((u, v), p) (edges kb) ->
    walk kb start (nodes ++ [v]) v (es ++ [p]).

(** The mode changes along a sequence of edges that the search charges
    for: a change counts when the mode left is a non-empty string
    different from the mode taken. *)
Fixpoint switches_from (prev : option string) (es : list props) : nat :=
  match es with
  | [] => 0%nat
  | p :: r =>
      ((if truthy prev && negb (eqb prev (Some (mode p)))
        then 1 else 0) + switches_from (Some (mode p)) r)%nat
  end.

Definition switches (es : list props) : nat := switches_from None es.

(** The mode of the last edge of [es], or [prev] when there is none. *)
Definition last_mode (prev : option string) (es : list props)
    : option string :=
  match rev es with
  | [] => prev
  | p :: _ => Some (mode p)
  end.

(** What the search accumulates along the edges [es], from the value [a]
    reached with previous mode [pm]: [acc + base + penalty] edge after
    edge, in machine arithmetic. *)
Fixpoint charge (metric : string) (tp a : pynum) (pm : option string)
    (es : list props) : result pynum :=
  match es with
  | [] => Ok a
  | p :: r =>
      a' <- new_acc_of metric tp a pm p ;;
      charge metric tp a' (Some (mode p)) r
  end.

(** The total the search gives a walk from [start]. *)
Definition charged (metric : string) (tp : pynum) (es : list props)
    : result pynum :=
  charge metric tp (PInt 0) None es.

(** On [int]s: the weights of the edges plus one penalty per charged mode
    change. *)
Fixpoint total_weight (metric : string) (es : list props) : Z :=
  match es with
  | [] => 0
  | p :: r => int_value (edge_weight metric p) + total_weight metric r
  end.

Definition path_cost (metric : string) (tp : pynum) (es : list props) : Z :=
  total_weight metric es + int_value tp * Z.of_nat (switches es).

(** What a run of the search may end with when the metric is valid: the
    only exception is the [OverflowError] of an [int] too large for a
    float, and a path returned is a walk from [start] to [goal] that comes
    with the total accumulated along it. *)
Definition sound_outcome (kb : KnowledgeBase) (start goal metric : string)
    (tp : pynum) (o : outcome) : Prop :=
  match o with
  | Raised e => e = OverflowError
  | OutOfFuel => True
  | Returned None t => t = py_inf
  | Returned (Some nodes) t =>
      exists es,
        walk kb start nodes goal es /\
        charged metric tp es = Ok t /\
        hd_error nodes = Some start /\ last nodes start = goal
  end.

(** A fork: A-B by metro and A-C by bus. *)
Definition fork_kb : KnowledgeBase :=
  add_edge "A" "C" "bus" (PInt 6) (fl 1 1) true
  (add_edge "A" "B" "metro" (PInt 4) (fl 15 10) true KnowledgeBase_init).

(** ** 8. Networks that put the arithmetic of the search to the test *)

(** One-way float edges: A-X 1e16, X-Y 1.0, Y-W 1.0, W-G 1.0 and
    A-G 1e16+2, all by metro. *)
Definition big_float_kb : KnowledgeBase :=
  add_edge "A" "G" "metro" (fl (10 ^ 16 + 2) 1) (fl (10 ^ 16 + 2) 1) false
  (add_edge "W" "G" "metro" (fl 1 1) (fl 1 1) false
  (add_edge "Y" "W" "metro" (fl 1 1) (fl 1 1) false
  (add_edge "X" "Y" "metro" (fl 1 1) (fl 1 1) false
  (add_edge "A" "X" "metro" (fl (10 ^ 16) 1) (fl (10 ^ 16) 1) false
     KnowledgeBase_init)))).

(** One-way edges A-B 2, A-C 3 and C-B -2, all by metro. *)
Definition negative_edge_kb : KnowledgeBase :=
  add_edge "C" "B" "metro" (PInt (-2)) (PInt (-2)) false
  (add_edge "A" "C" "metro" (PInt 3) (PInt 3) false
  (add_edge "A" "B" "metro" (PInt 2) (PInt 2) false KnowledgeBase_init)).


(** A-B 0.1, B-D 0.2 and A-D 0.3, by metro. *)
Definition decimal_kb : KnowledgeBase :=
  add_edge "A" "D" "metro" (fl 3 10) (fl 3 10) true
  (add_edge "B" "D" "metro" (fl 2 10) (fl 2 10) true
  (add_edge "A" "B" "metro" (fl 1 10) (fl 1 10) true KnowledgeBase_init)).


(** * Proofs *)

(** ** Laws of the boolean equalities *)

#[export] Instance EqbLaws_string : EqbLaws string.
Proof. constructor. exact String.eqb_eq. Qed.

#[export] Instance EqbLaws_pair {A B : Type} `{EqbLaws A} `{EqbLaws B} :
  EqbLaws (A * B).
Proof.
  constructor. intros [a b] [a' b']. simpl.
  rewrite andb_true_iff, !eqb_true_iff. split.
  - intros [-> ->]. reflexivity.
  - intros E. inversion E. auto.
Qed.

#[export] Instance EqbLaws_option {A : Type} `{EqbLaws A} :
  EqbLaws (option A).
Proof.
  constructor. intros [a|] [b|]; simpl;
    try (split; [discriminate | congruence]); [|tauto].
  rewrite eqb_true_iff. split; congruence.
Qed.

Lemma eqb_spec {K : Type} `{EqbLaws K} (x y : K) : reflect (x = y) (eqb x y).
Proof. apply iff_reflect. symmetry. apply eqb_true_iff. Qed.

Lemma eqb_refl {K : Type} `{EqbLaws K} (k : K) : eqb k k = true.
Proof. destruct (eqb_spec k k); congruence. Qed.

Lemma eqb_neq {K : Type} `{EqbLaws K} (k k' : K) :
  k <> k' -> eqb k k' = false.
Proof. destruct (eqb_spec k k'); congruence. Qed.

Lemma eqb_eq {K : Type} `{EqbLaws K} (k k' : K) :
  eqb k k' = true -> k = k'.
Proof. destruct (eqb_spec k k'); congruence. Qed.

(** ** Dictionary lemmas *)

Section DictFacts.
Context {K V : Type} `{EqbLaws K}.
Implicit Types (d : dict K V) (k : K) (v : V).

Lemma dict_get_set_same k v d : dict_get k (dict_set k v d) = Some v.
Proof.
  induction d as [|[k' v'] d IH]; simpl.
  - now rewrite eqb_refl.
  - destruct (eqb_spec k k') as [->|Hne]; simpl.
    + now rewrite eqb_refl.
    + now rewrite (eqb_neq _ _ Hne).
Qed.

Lemma dict_get_set_other k k' v d :
  k <> k' -> dict_get k' (dict_set k v d) = dict_get k' d.
Proof.
  intros Hne. induction d as [|[k0 v0] d IH]; simpl.
  - rewrite eqb_neq; congruence.
  - destruct (eqb_spec k k0) as [->|Hne0]; simpl.
    + rewrite eqb_neq; congruence.
    + now rewrite IH.
Qed.

Lemma dict_get_In k v d : dict_get k d = Some v -> In (k, v) d.
Proof.
  induction d as [|[k' v'] d IH]; simpl; [discriminate|].
  destruct (eqb_spec k k') as [->|Hne]; intros E.
  - left. congruence.
  - right. auto.
Qed.

Lemma dict_get_None k d : dict_get k d = None <-> ~ In k (keys d).
Proof.
  induction d as [|[k' v'] d IH]; simpl; [tauto|].
  destruct (eqb_spec k k') as [->|Hne].
  - split; [discriminate | tauto].
  - rewrite IH. split; [intros Hn [E|I]; congruence | tauto].
Qed.

Lemma dict_mem_In k d : dict_mem k d = true <-> In k (keys d).
Proof.
  unfold dict_mem. destruct (dict_get k d) eqn:E.
  - split; [intros _|reflexivity].
    apply dict_get_In in E. apply (in_map fst) in E. exact E.
  - apply dict_get_None in E. split; [discriminate | tauto].
Qed.

Lemma dict_mem_false k d : dict_mem k d = false <-> ~ In k (keys d).
Proof.
  rewrite <- dict_mem_In. destruct (dict_mem k d); split; congruence.
Qed.

Lemma In_dict_get k v d : dict_wf d -> In (k, v) d -> dict_get k d = Some v.
Proof.
  unfold dict_wf. induction d as [|[k' v'] d IH]; simpl; [tauto|].
  intros Hnd [E|I].
  - inversion E; subst. now rewrite eqb_refl.
  - inversion Hnd as [|? ? Hni Hnd']; subst.
    destruct (eqb_spec k k') as [->|Hne]; auto.
    exfalso. apply Hni. apply (in_map fst) in I. exact I.
Qed.

Lemma keys_dict_set k k' v d :
  In k' (keys (dict_set k v d)) <-> k' = k \/ In k' (keys d).
Proof.
  induction d as [|[k0 v0] d IH]; simpl.
  - intuition congruence.
  - destruct (eqb_spec k k0) as [->|Hne]; simpl.
    + intuition congruence.
    + rewrite IH. intuition congruence.
Qed.

Lemma dict_set_wf k v d : dict_wf d -> dict_wf (dict_set k v d).
Proof.
  unfold dict_wf. induction d as [|[k0 v0] d IH]; simpl; intros Hnd.
  - constructor; [simpl; tauto | constructor].
  - inversion Hnd as [|? ? Hni Hnd']; subst.
    destruct (eqb_spec k k0) as [->|Hne]; simpl.
    + constructor; assumption.
    + constructor; [|auto].
      intros Hin. apply keys_dict_set in Hin. destruct Hin; congruence.
Qed.

Lemma dict_set_length_new k v d :
  ~ In k (keys d) -> List.length (dict_set k v d) = S (List.length d).
Proof.
  induction d as [|[k0 v0] d IH]; simpl; intros Hni; [reflexivity|].
  destruct (eqb_spec k k0) as [->|Hne]; simpl; [tauto|].
  rewrite IH; tauto.
Qed.

Lemma dict_set_filter (f : K * V -> bool) k v d :
  (forall v', f (k, v') = false) ->
  filter f (dict_set k v d) = filter f d.
Proof.
  intros Hf. induction d as [|[k0 v0] d IH]; simpl.
  - now rewrite Hf.
  - destruct (eqb_spec k k0) as [->|Hne]; simpl.
    + now rewrite !Hf.
    + now rewrite IH.
Qed.
End DictFacts.

(** ** The rules of the knowledge base *)

Lemma add_edge_keys u v m t c b kb k :
  In k (keys (edges (add_edge u v m t c b kb))) <->
  In k (keys (edges kb)) \/ In k (written_keys b [(u, v, m, t, c)]).
Proof.
  unfold add_edge. destruct b; simpl; rewrite ?keys_dict_set;
    unfold swap_key; simpl; intuition congruence.
Qed.

Lemma add_edge_get_other u v m t c b kb k :
  ~ In k (written_keys b [(u, v, m, t, c)]) ->
  dict_get k (edges (add_edge u v m t c b kb)) = dict_get k (edges kb).
Proof.
  unfold add_edge, swap_key. destruct b; simpl; intros Hni.
  - rewrite !dict_get_set_other; intuition congruence.
  - rewrite dict_get_set_other; intuition congruence.
Qed.

Lemma add_edge_wf u v m t c b kb :
  dict_wf (edges kb) -> dict_wf (edges (add_edge u v m t c b kb)).
Proof.
  unfold add_edge. destruct b; simpl; intros Hwf;
    repeat apply dict_set_wf; assumption.
Qed.

Lemma add_edge_filter_loops u v m t c b kb :
  u <> v ->
  filter is_self_loop (edges (add_edge u v m t c b kb)) =
  filter is_self_loop (edges kb).
Proof.
  intros Hne. unfold add_edge.
  assert (L1 : forall p : props, is_self_loop ((u, v), p) = false).
  { intros p. unfold is_self_loop; simpl. apply String.eqb_neq. exact Hne. }
  assert (L2 : forall p : props, is_self_loop ((v, u), p) = false).
  { intros p. unfold is_self_loop; simpl. apply String.eqb_neq. congruence. }
  destruct b; simpl; rewrite ?dict_set_filter; auto.
Qed.

Lemma written_keys_cons b e new k :
  In k (written_keys b (e :: new)) <->
  In k (written_keys b [e]) \/ In k (written_keys b new).
Proof.
  unfold written_keys. simpl. rewrite app_nil_r, in_app_iff. tauto.
Qed.

Lemma written_keys_false new k :
  In k (written_keys false new) <-> In k (map new_edge_key new).
Proof.
  induction new as [|e new IH]; simpl; [tauto|].
  rewrite <- IH. unfold written_keys. simpl. tauto.
Qed.

Lemma add_all_cons b e new kb :
  add_all b (e :: new) kb =
  add_all b new
    (let '(u, v, m, t, c) := e in add_edge u v m t c b kb).
Proof. reflexivity. Qed.

Lemma add_all_keys b new kb k :
  In k (keys (edges (add_all b new kb))) <->
  In k (keys (edges kb)) \/ In k (written_keys b new).
Proof.
  revert kb. induction new as [|[[[[u v] m] t] c] new IH]; intros kb.
  - simpl. tauto.
  - rewrite add_all_cons, IH, add_edge_keys, written_keys_cons. tauto.
Qed.

Lemma add_all_get_other b new kb k :
  ~ In k (written_keys b new) ->
  dict_get k (edges (add_all b new kb)) = dict_get k (edges kb).
Proof.
  revert kb. induction new as [|[[[[u v] m] t] c] new IH]; intros kb Hni.
  - reflexivity.
  - rewrite written_keys_cons in Hni.
    rewrite add_all_cons, IH, add_edge_get_other; tauto.
Qed.

Lemma add_all_wf b new kb :
  dict_wf (edges kb) -> dict_wf (edges (add_all b new kb)).
Proof.
  revert kb. induction new as [|[[[[u v] m] t] c] new IH]; intros kb Hwf.
  - exact Hwf.
  - rewrite add_all_cons. apply IH, add_edge_wf, Hwf.
Qed.

Lemma add_all_filter_loops b new kb :
  (forall e, In e new -> fst (new_edge_key e) <> snd (new_edge_key e)) ->
  filter is_self_loop (edges (add_all b new kb)) =
  filter is_self_loop (edges kb).
Proof.
  revert kb. induction new as [|[[[[u v] m] t] c] new IH]; intros kb Hne.
  - reflexivity.
  - rewrite add_all_cons, IH by (intros e He; apply Hne; now right).
    apply add_edge_filter_loops.
    apply (Hne (u, v, m, t, c)). now left.
Qed.

Lemma add_all_false_get_new new kb u v m t c :
  NoDup (map new_edge_key new) -> In (u, v, m, t, c) new ->
  dict_get (u, v) (edges (add_all false new kb)) = Some (mkProps m t c).
Proof.
  revert kb. induction new as [|e new IH]; intros kb Hnd Hin; [contradiction|].
  simpl in Hnd. inversion Hnd as [|? ? Hni Hnd']; subst.
  destruct Hin as [->|Hin].
  - rewrite add_all_cons, add_all_get_other.
    + unfold add_edge; simpl. apply dict_get_set_same.
    + rewrite written_keys_false. exact Hni.
  - rewrite add_all_cons. apply IH; assumption.
Qed.

Lemma symmetry_new_edges_In snap d e :
  In e (symmetry_new_edges snap d) <->
  exists u v p, In ((u, v), p) snap /\ ~ In (v, u) (keys d) /\
                e = (v, u, mode p, time p, cost p).
Proof.
  induction snap as [|[[u v] p] snap IH]; simpl.
  - split; [tauto | intros (? & ? & ? & [] & _)].
  - destruct (dict_mem (v, u) d) eqn:E; simpl; rewrite IH.
    + apply dict_mem_In in E. split.
      * intros (u' & v' & p' & Hin & Hni & ->). eauto 8.
      * intros (u' & v' & p' & [Heq|Hin] & Hni & ->); [|eauto 8].
        inversion Heq; subst. contradiction.
    + apply dict_mem_false in E. split.
      * intros [<-|(u' & v' & p' & Hin & Hni & ->)]; eauto 8.
      * intros (u' & v' & p' & [Heq|Hin] & Hni & ->); [|eauto 8].
        inversion Heq; subst. now left.
Qed.

Lemma symmetry_new_edges_NoDup snap d :
  NoDup (keys snap) -> NoDup (map new_edge_key (symmetry_new_edges snap d)).
Proof.
  induction snap as [|[[u v] p] snap IH]; simpl; intros Hnd; [constructor|].
  inversion Hnd as [|? ? Hni Hnd']; subst.
  destruct (negb (dict_mem (v, u) d)); simpl; [|auto].
  constructor; [|auto].
  intros Hin. apply in_map_iff in Hin. destruct Hin as (e & Hk & He).
  apply symmetry_new_edges_In in He.
  destruct He as (u' & v' & p' & Hin & _ & ->). simpl in Hk.
  inversion Hk; subst. apply Hni.
  apply (in_map fst) in Hin. exact Hin.
Qed.

Lemma symmetry_new_edges_nil snap d :
  (forall u v p, In ((u, v), p) snap -> In (v, u) (keys d)) ->
  symmetry_new_edges snap d = [].
Proof.
  intros Hc. destruct (symmetry_new_edges snap d) as [|e l] eqn:E; auto.
  assert (Hin : In e (symmetry_new_edges snap d)) by (rewrite E; now left).
  apply symmetry_new_edges_In in Hin.
  destruct Hin as (u & v & p & Hin & Hni & _). exfalso. eauto.
Qed.

Lemma make_bidirectional_keys kb k :
  In k (keys (edges (make_bidirectional kb))) <->
  In k (keys (edges kb)) \/
  (In (swap_key k) (keys (edges kb)) /\ ~ In k (keys (edges kb))).
Proof.
  unfold make_bidirectional. rewrite add_all_keys, written_keys_false.
  rewrite in_map_iff. split.
  - intros [Hin|(e & Hk & He)]; [now left|right].
    apply symmetry_new_edges_In in He.
    destruct He as (u & v & p & Hin & Hni & ->). simpl in Hk. subst k.
    split; [|exact Hni]. unfold swap_key; simpl.
    apply (in_map fst) in Hin. exact Hin.
  - intros [Hin|[Hsw Hni]]; [now left|right].
    destruct k as [u v]. unfold swap_key in Hsw; simpl in Hsw.
    apply in_map_iff in Hsw. destruct Hsw as ([k' p] & Hk & Hin).
    simpl in Hk. subst k'.
    exists (u, v, mode p, time p, cost p). split; [reflexivity|].
    apply symmetry_new_edges_In. eauto 8.
Qed.

Lemma make_bidirectional_closed kb u v :
  In (u, v) (keys (edges (make_bidirectional kb))) ->
  In (v, u) (keys (edges (make_bidirectional kb))).
Proof.
  rewrite !make_bidirectional_keys. unfold swap_key; simpl.
  destruct (dict_mem (v, u) (edges kb)) eqn:E.
  - apply dict_mem_In in E. tauto.
  - apply dict_mem_false in E. tauto.
Qed.

Lemma make_bidirectional_wf kb :
  dict_wf (edges kb) -> dict_wf (edges (make_bidirectional kb)).
Proof. apply add_all_wf. Qed.

Lemma make_bidirectional_get_old kb k :
  In k (keys (edges kb)) ->
  dict_get k (edges (make_bidirectional kb)) = dict_get k (edges kb).
Proof.
  intros Hin. unfold make_bidirectional. apply add_all_get_other.
  rewrite written_keys_false, in_map_iff. intros (e & Hk & He).
  apply symmetry_new_edges_In in He.
  destruct He as (u & v & p & _ & Hni & ->). simpl in Hk. subst k.
  contradiction.
Qed.

Lemma make_bidirectional_get_new kb u v p :
  dict_wf (edges kb) ->
  dict_get (u, v) (edges kb) = Some p -> ~ In (v, u) (keys (edges kb)) ->
  dict_get (v, u) (edges (make_bidirectional kb)) = Some p.
Proof.
  intros Hwf Hget Hni. unfold make_bidirectional.
  rewrite (add_all_false_get_new _ _ v u (mode p) (time p) (cost p)).
  - destruct p; reflexivity.
  - apply symmetry_new_edges_NoDup, Hwf.
  - apply symmetry_new_edges_In. apply dict_get_In in Hget. eauto 8.
Qed.

Lemma transfer_inner_In a b p1 snap d pt e :
  In e (transfer_inner a b p1 snap d pt) <->
  exists d' p2, In ((a, d'), p2) snap /\ b <> d' /\ mode p1 <> mode p2 /\
                ~ In (b, d') (keys d) /\ e = (b, d', "walk", pt, zero_float).
Proof.
  induction snap as [|[[c d'] p2] snap IH]; simpl.
  - split; [tauto | intros (? & ? & [] & _)].
  - destruct (String.eqb_spec a c) as [<-|Hac];
      destruct (String.eqb_spec b d') as [<-|Hbd];
      destruct (String.eqb_spec (mode p1) (mode p2)) as [Hm|Hm]; simpl;
      try (rewrite IH; split;
           [ intros (x & q & Hin & H1 & H2 & H3 & ->); eauto 10
           | intros (x & q & [Heq|Hin] & H1 & H2 & H3 & ->);
             [inversion Heq; subst; congruence | eauto 10] ]).
    destruct (dict_mem (b, d') d) eqn:E; simpl; rewrite IH.
    + apply dict_mem_In in E. split.
      * intros (x & q & Hin & H1 & H2 & H3 & ->); eauto 10.
      * intros (x & q & [Heq|Hin] & H1 & H2 & H3 & ->); [|eauto 10].
        inversion Heq; subst. contradiction.
    + apply dict_mem_false in E. split.
      * intros [<-|(x & q & Hin & H1 & H2 & H3 & ->)]; eauto 10.
      * intros (x & q & [Heq|Hin] & H1 & H2 & H3 & ->); [|eauto 10].
        inversion Heq; subst. now left.
Qed.

Lemma transfer_new_edges_In outer snap d pt e :
  In e (transfer_new_edges outer snap d pt) <->
  exists a b p1 d' p2,
    In ((a, b), p1) outer /\ In ((a, d'), p2) snap /\ b <> d' /\
    mode p1 <> mode p2 /\ ~ In (b, d') (keys d) /\
    e = (b, d', "walk", pt, zero_float).
Proof.
  induction outer as [|[[a b] p1] outer IH]; simpl.
  - split; [tauto | intros (? & ? & ? & ? & ? & [] & _)].
  - rewrite in_app_iff, IH, transfer_inner_In. split.
    + intros [(d' & p2 & H)|(a' & b' & p' & d' & p2 & Hin & H)].
      * exists a, b, p1, d', p2. tauto.
      * exists a', b', p', d', p2. tauto.
    + intros (a' & b' & p' & d' & p2 & [Heq|Hin] & H).
      * inversion Heq; subst. left. eauto.
      * right. exists a', b', p', d', p2. tauto.
Qed.

Lemma written_keys_In b new e :
  In e new -> In (new_edge_key e) (written_keys b new).
Proof.
  intros Hin. unfold written_keys. apply in_flat_map. exists e.
  split; [exact Hin|]. destruct b; now left.
Qed.

Lemma written_keys_true_inv new k :
  In k (written_keys true new) ->
  exists e, In e new /\ (k = new_edge_key e \/ k = swap_key (new_edge_key e)).
Proof.
  unfold written_keys. rewrite in_flat_map. intros (e & Hin & Hk).
  exists e. simpl in Hk. intuition.
Qed.

Lemma add_transfers_wf pt kb :
  dict_wf (edges kb) -> dict_wf (edges (add_transfers pt kb)).
Proof. apply add_all_wf. Qed.

Lemma add_transfers_noop_iff pt kb :
  add_transfers pt kb = kb <-> transfer_closed kb.
Proof.
  split.
  - intros Heq a b d p1 p2 H1 H2 Hbd Hm.
    destruct (dict_mem (b, d) (edges kb)) eqn:E.
    + now apply dict_mem_In in E.
    + apply dict_mem_false in E. exfalso. apply E.
      rewrite <- Heq at 1. unfold add_transfers.
      apply add_all_keys. right.
      apply (written_keys_In true _ (b, d, "walk", pt, zero_float)).
      apply transfer_new_edges_In. exists a, b, p1, d, p2. tauto.
  - intros Hc. unfold add_transfers.
    destruct (transfer_new_edges (edges kb) (edges kb) (edges kb) pt)
      as [|e l] eqn:E; [reflexivity|].
    assert (Hin : In e (transfer_new_edges (edges kb) (edges kb) (edges kb) pt))
      by (rewrite E; now left).
    apply transfer_new_edges_In in Hin.
    destruct Hin as (a & b & p1 & d & p2 & H1 & H2 & Hbd & Hm & Hni & _).
    exfalso. apply Hni. eapply Hc; eauto.
Qed.

Lemma add_transfers_same_mapping pt kb :
  same_mapping (edges (add_transfers pt kb)) (edges kb) ->
  transfer_closed kb.
Proof.
  intros Heq a b d p1 p2 H1 H2 Hbd Hm.
  destruct (dict_mem (b, d) (edges kb)) eqn:E.
  - now apply dict_mem_In in E.
  - apply dict_mem_false in E. exfalso.
    assert (Hin : In (b, d) (keys (edges (add_transfers pt kb)))).
    { unfold add_transfers. apply add_all_keys. right.
      apply (written_keys_In true _ (b, d, "walk", pt, zero_float)).
      apply transfer_new_edges_In. exists a, b, p1, d, p2. tauto. }
    apply dict_get_None in E. pose proof (Heq (b, d)) as Hk.
    unfold edge_key in *. rewrite E in Hk.
    apply dict_get_None in Hk. contradiction.
Qed.

(** ** Claims about the rules *)

(** C3, as stated, fails: when both directions of a connection were
    entered with different attributes, [make_bidirectional] leaves both
    as they are. *)
Lemma make_bidirectional_keeps_asymmetry :
  ~ (forall kb, dict_wf (edges kb) ->
                symmetric_identical (make_bidirectional kb)).
Proof.
  intros Hc.
  assert (Hwf : dict_wf (edges asym_kb)).
  { repeat apply add_edge_wf. constructor. }
  specialize (Hc asym_kb Hwf "A" "B" (mkProps "metro" (PInt 4) (fl 15 10))
                eq_refl).
  vm_compute in Hc. discriminate Hc.
Qed.

(** C3 (amended): after [make_bidirectional], every key [(u, v)] present
    has its reverse [(v, u)] present; the attributes of the reverse are
    identical to those of [(u, v)] whenever one of the two keys was absent
    before the call (two keys already present keep their attributes). *)
Theorem make_bidirectional_symmetric (kb : KnowledgeBase) (u v : string)
    (p : props) :
  dict_wf (edges kb) ->
  dict_get (u, v) (edges (make_bidirectional kb)) = Some p ->
  exists p',
    dict_get (v, u) (edges (make_bidirectional kb)) = Some p' /\
    (dict_get (u, v) (edges kb) = None \/ dict_get (v, u) (edges kb) = None ->
     p' = p).
Proof.
  intros Hwf Hget.
  assert (Huv : In (u, v) (keys (edges (make_bidirectional kb)))).
  { apply dict_get_In in Hget. apply (in_map fst) in Hget. exact Hget. }
  apply make_bidirectional_keys in Huv. unfold swap_key in Huv. simpl in Huv.
  destruct (dict_get (v, u) (edges kb)) as [q|] eqn:Evu.
  - assert (Hvu : In (v, u) (keys (edges kb))).
    { apply dict_get_In in Evu. apply (in_map fst) in Evu. exact Evu. }
    exists q. split.
    + rewrite make_bidirectional_get_old; assumption.
    + intros [Hn|Hn]; [|discriminate].
      apply dict_get_None in Hn.
      pose proof (make_bidirectional_get_new kb v u q Hwf Evu Hn) as Hnew.
      congruence.
  - apply dict_get_None in Evu.
    destruct Huv as [Huv|[Hvu _]]; [|contradiction].
    rewrite make_bidirectional_get_old in Hget by assumption.
    exists p. split; [|reflexivity].
    apply make_bidirectional_get_new; assumption.
Qed.

Lemma make_bidirectional_symmetric_witness :
  exists p',
    dict_get ("B", "A")
      (edges (make_bidirectional
                (add_edge "A" "B" "metro" (PInt 4) (fl 15 10) false
                   KnowledgeBase_init))) = Some p' /\
    (dict_get ("A", "B")
       (edges (add_edge "A" "B" "metro" (PInt 4) (fl 15 10) false
                 KnowledgeBase_init)) = None \/
     dict_get ("B", "A")
       (edges (add_edge "A" "B" "metro" (PInt 4) (fl 15 10) false
                 KnowledgeBase_init)) = None ->
     p' = mkProps "metro" (PInt 4) (fl 15 10)).
Proof.
  apply (make_bidirectional_symmetric
           (add_edge "A" "B" "metro" (PInt 4) (fl 15 10) false KnowledgeBase_init)
           "A" "B" (mkProps "metro" (PInt 4) (fl 15 10))).
  - apply add_edge_wf. constructor.
  - reflexivity.
Defined.

(** C4: a second call of [make_bidirectional] changes nothing: the edge
    dictionary after two calls is the one after one call. *)
Theorem make_bidirectional_idempotent (kb : KnowledgeBase) :
  make_bidirectional (make_bidirectional kb) = make_bidirectional kb.
Proof.
  unfold make_bidirectional at 1.
  rewrite symmetry_new_edges_nil; [reflexivity|].
  intros u v p Hin. apply make_bidirectional_closed.
  apply (in_map fst) in Hin. exact Hin.
Qed.

(** C5, as stated, fails on the seeded network: the walk edges of the
    first call are themselves edges of a new mode, so the second call adds
    further transfers, such as P1-Centro. *)
Lemma add_transfers_grows_again :
  ~ (forall kb pt,
       dict_wf (edges kb) ->
       same_mapping (edges (add_transfers pt (add_transfers pt kb)))
                    (edges (add_transfers pt kb))).
Proof.
  intros Hc.
  assert (Hwf : dict_wf (edges (make_bidirectional seed_facts))).
  { apply make_bidirectional_wf. repeat apply add_edge_wf. constructor. }
  specialize (Hc (make_bidirectional seed_facts) (fl 3 1) Hwf ("P1", "Centro")).
  vm_compute in Hc. discriminate Hc.
Qed.

(** C5 (amended): a second call of [add_transfers] with the same penalty
    leaves the edge dictionary unchanged exactly when the dictionary left
    by the first call has no two edges out of one origin, towards
    different destinations and with different modes (the walk edges just
    added included), whose destinations lack a connecting edge. *)
Theorem add_transfers_twice (pt : pynum) (kb : KnowledgeBase) :
  (add_transfers pt (add_transfers pt kb) = add_transfers pt kb <->
   transfer_closed (add_transfers pt kb)) /\
  (same_mapping (edges (add_transfers pt (add_transfers pt kb)))
                (edges (add_transfers pt kb)) <->
   transfer_closed (add_transfers pt kb)).
Proof.
  split; [apply add_transfers_noop_iff|]. split.
  - apply add_transfers_same_mapping.
  - intros Hc. apply (add_transfers_noop_iff pt) in Hc. rewrite Hc.
    intros k. reflexivity.
Qed.

(** C8: neither rule inserts a self-loop. For both rules the self-loop
    items of the dictionary are the same list before and after the call
    (none added, none duplicated, none rewritten), and every key that a
    call adds has two different components. *)
Theorem rules_add_no_self_loop :
  (forall kb,
     filter is_self_loop (edges (make_bidirectional kb)) =
     filter is_self_loop (edges kb)) /\
  (forall pt kb,
     filter is_self_loop (edges (add_transfers pt kb)) =
     filter is_self_loop (edges kb)) /\
  (forall kb u v,
     In (u, v) (keys (edges (make_bidirectional kb))) ->
     ~ In (u, v) (keys (edges kb)) -> u <> v) /\
  (forall pt kb u v,
     In (u, v) (keys (edges (add_transfers pt kb))) ->
     ~ In (u, v) (keys (edges kb)) -> u <> v).
Proof.
  assert (S1 : forall kb e,
             In e (symmetry_new_edges (edges kb) (edges kb)) ->
             fst (new_edge_key e) <> snd (new_edge_key e)).
  { intros kb e He. apply symmetry_new_edges_In in He.
    destruct He as (u & v & p & Hin & Hni & ->). simpl.
    intros <-. apply Hni. apply (in_map fst) in Hin. exact Hin. }
  assert (S2 : forall pt kb e,
             In e (transfer_new_edges (edges kb) (edges kb) (edges kb) pt) ->
             fst (new_edge_key e) <> snd (new_edge_key e)).
  { intros pt kb e He. apply transfer_new_edges_In in He.
    destruct He as (a & b & p1 & d & p2 & _ & _ & Hbd & _ & _ & ->).
    exact Hbd. }
  repeat split.
  - intros kb. apply add_all_filter_loops, S1.
  - intros pt kb. apply add_all_filter_loops, S2.
  - intros kb u v Hin Hni. unfold make_bidirectional in Hin.
    apply add_all_keys in Hin. destruct Hin as [Hin|Hin]; [contradiction|].
    apply written_keys_false, in_map_iff in Hin.
    destruct Hin as (e & Hk & He). apply S1 in He. rewrite Hk in He.
    exact He.
  - intros pt kb u v Hin Hni. unfold add_transfers in Hin.
    apply add_all_keys in Hin. destruct Hin as [Hin|Hin]; [contradiction|].
    apply written_keys_true_inv in Hin.
    destruct Hin as (e & He & [Hk|Hk]); apply S2 in He;
      destruct (new_edge_key e) as [x y]; unfold swap_key in Hk;
      simpl in *; inversion Hk; subst; congruence.
Qed.

(** ** Claims about the search settled by its structure or by evaluation *)

(** More fuel does not change a run that ended within its fuel. *)
Lemma dijkstra_loop_more_fuel fuel extra kb goal metric tp pq visited :
  fst (dijkstra_loop fuel kb goal metric tp pq visited) <> OutOfFuel ->
  dijkstra_loop (fuel + extra) kb goal metric tp pq visited =
  dijkstra_loop fuel kb goal metric tp pq visited.
Proof.
  revert kb pq visited.
  induction fuel as [|fuel IH]; intros kb pq visited Hne.
  - simpl in Hne. congruence.
  - simpl in *. destruct pq as [|e pq]; [reflexivity|].
    destruct (heappop entry_lt (e :: pq)) as [[item pq1]|x]; [|reflexivity].
    destruct (String.eqb (node item) goal); [reflexivity|].
    destruct (seen_better (node item, prev_mode item) (acc item) visited).
    + apply IH. exact Hne.
    + destruct (expand _ _ _ _ _ _ pq1) as [pq2|x]; [|reflexivity].
      apply IH. exact Hne.
Qed.

(** C1: on the seeded network the query from A to D by time, with
    transfer penalty 2.0, returns the path A, B, C, D and the total 12
    (24 iterations of the loop suffice; any larger bound gives the same).
    The three metro legs are charged no penalty, so the total is the
    [int] 12, which Python holds equal to 12.0. *)
Theorem seed_route_A_D (extra : nat) :
  fst (dijkstra (24 + extra) seed_kb "A" "D" "time" (fl 2 1)) =
  Returned (Some ["A"; "B"; "C"; "D"]) (PInt 12) /\
  py_eqb (PInt 12) (fl 12 1) = true.
Proof.
  split; [|reflexivity].
  unfold dijkstra. rewrite dijkstra_loop_more_fuel.
  - vm_compute. reflexivity.
  - vm_compute. discriminate.
Qed.

(** No penalty on the first edge out of [start]: there the previous mode
    is [None]. *)
Lemma penalty_of_first_edge tp next_mode :
  penalty_of tp None next_mode = PInt 0.
Proof. reflexivity. Qed.

(** After an edge whose mode is a non-empty string, the penalty is added
    exactly when the next mode differs. *)
Lemma penalty_of_named_mode tp c m next_mode :
  penalty_of tp (Some (String c m)) next_mode =
  if String.eqb (String c m) next_mode then PInt 0 else tp.
Proof.
  unfold penalty_of. cbn [truthy andb eqb Eqb_option].
  change (eqb (String c m) next_mode) with (String.eqb (String c m) next_mode).
  destruct (String.eqb (String c m) next_mode); reflexivity.
Qed.

(** C7 fails on the code for an edge whose mode is the empty string: the
    test [prev_mode and ...] takes the empty string for an undefined
    previous mode, so leaving such an edge by another mode costs no
    penalty. On [blank_mode_kb] the leg A-B has mode [""] and B-C is a
    bus: the expansion of B computes 1 + 1 + 0 instead of 1 + 1 + 2.0, and
    the search returns the total 2. *)
Theorem blank_mode_switch_unpenalised :
  new_acc_of "time" (fl 2 1) (PInt 1) (Some "")
    (mkProps "bus" (PInt 1) (PInt 1)) = Ok (PInt 2) /\
  fst (dijkstra 4 blank_mode_kb "A" "C" "time" (fl 2 1)) =
  Returned (Some ["A"; "B"; "C"]) (PInt 2).
Proof. split; vm_compute; reflexivity. Qed.

Lemma dijkstra_loop_read_only fuel kb goal metric tp pq visited :
  snd (dijkstra_loop fuel kb goal metric tp pq visited) = kb.
Proof.
  revert pq visited. induction fuel as [|fuel IH]; intros pq visited.
  - reflexivity.
  - simpl. destruct pq as [|e pq]; [reflexivity|].
    destruct (heappop entry_lt (e :: pq)) as [[item pq1]|x]; [|reflexivity].
    destruct (String.eqb (node item) goal); [reflexivity|].
    destruct (seen_better (node item, prev_mode item) (acc item) visited).
    + apply IH.
    + destruct (expand _ _ _ _ _ _ pq1) as [pq2|x]; [|reflexivity].
      apply IH.
Qed.

(** Whatever the arguments, an iteration that finds the queue empty
    returns the no-route result. *)
Lemma empty_queue_no_route fuel kb goal metric tp visited :
  dijkstra_loop (S fuel) kb goal metric tp [] visited =
  (Returned None py_inf, kb).
Proof. reflexivity. Qed.

(** C9: [dijkstra] leaves the knowledge base as it received it, whatever
    the arguments and however the call ends. *)
Theorem dijkstra_read_only (fuel : nat) (kb : KnowledgeBase)
    (start goal metric : string) (transfer_penalty : pynum) :
  snd (dijkstra fuel kb start goal metric transfer_penalty) = kb.
Proof. apply dijkstra_loop_read_only. Qed.

(** C10: a query from a node to itself returns the one-node path and the
    total 0 at the first iteration, for every knowledge base (the node
    need not occur in it) and every metric string, even one that no edge
    could be read with: no edge is examined. *)
Theorem dijkstra_same_node (fuel : nat) (kb : KnowledgeBase)
    (s metric : string) (transfer_penalty : pynum) :
  dijkstra (S fuel) kb s s metric transfer_penalty =
  (Returned (Some [s]) (PInt 0), kb).
Proof.
  unfold dijkstra. simpl. rewrite String.eqb_refl. reflexivity.
Qed.

(** ** Arrays and the heap operations *)

Section ArrayFacts.
Context {A : Type}.
Variable A_eq_dec : forall x y : A, {x = y} + {x <> y}.
Implicit Types (l h : list A) (i j : nat) (x y : A).
Local Open Scope nat_scope.

Local Abbreviation ind := (ind A_eq_dec).

Lemma upd_length l i x : List.length (upd l i x) = List.length l.
Proof.
  revert i. induction l as [|a l IH]; intros [|i]; simpl; auto.
Qed.

Lemma nth_error_upd_same l i x :
  i < List.length l -> nth_error (upd l i x) i = Some x.
Proof.
  revert i. induction l as [|a l IH]; intros [|i]; simpl; intros Hlt;
    try lia; auto. apply IH. lia.
Qed.

Lemma nth_error_upd_other l i j x :
  i <> j -> nth_error (upd l i x) j = nth_error l j.
Proof.
  revert i j. induction l as [|a l IH]; intros [|i] [|j] Hne; simpl;
    auto; try congruence.
Qed.

Lemma Forall_upd (P : A -> Prop) l i x :
  Forall P l -> P x -> Forall P (upd l i x).
Proof.
  revert i. induction l as [|a l IH]; intros [|i] Hall Hx; simpl; auto;
    inversion Hall; subst; constructor; auto.
Qed.

Lemma count_occ_upd l i x old y :
  nth_error l i = Some old ->
  count_occ A_eq_dec (upd l i x) y + ind old y =
  count_occ A_eq_dec l y + ind x y.
Proof.
  revert i. induction l as [|a l IH]; intros [|i]; simpl; try discriminate.
  - intros E. inversion E; subst. unfold ind.
    destruct (A_eq_dec old y); destruct (A_eq_dec x y); lia.
  - intros E. specialize (IH i E).
    destruct (A_eq_dec a y); lia.
Qed.

Lemma count_occ_snoc l x y :
  count_occ A_eq_dec (l ++ [x]) y = count_occ A_eq_dec l y + ind x y.
Proof.
  rewrite count_occ_app. simpl. unfold ind.
  destruct (A_eq_dec x y); lia.
Qed.

Lemma count_occ_cons_ind l x y :
  count_occ A_eq_dec (x :: l) y = count_occ A_eq_dec l y + ind x y.
Proof.
  simpl. unfold ind. destruct (A_eq_dec x y); lia.
Qed.

Lemma list_get_Some l i x : nth_error l i = Some x -> list_get l i = Ok x.
Proof. unfold list_get. now intros ->. Qed.

Lemma list_set_lt l i x :
  i < List.length l -> list_set l i x = Ok (upd l i x).
Proof.
  unfold list_set. intros Hlt.
  destruct (Nat.ltb_spec i (List.length l)); [reflexivity | lia].
Qed.

Lemma nth_error_lt l i x : nth_error l i = Some x -> i < List.length l.
Proof. intros E. apply nth_error_Some. congruence. Qed.

Lemma nth_error_some_lt l i :
  i < List.length l -> exists x, nth_error l i = Some x.
Proof.
  intros Hlt. destruct (nth_error l i) eqn:E; eauto.
  apply nth_error_None in E. lia.
Qed.

Lemma list_pop_snoc l :
  l <> [] ->
  exists last front, list_pop l = Ok (last, front) /\ l = front ++ [last].
Proof.
  induction l as [|a l IH]; [congruence|]. intros _.
  destruct l as [|b l].
  - exists a, []. split; reflexivity.
  - destruct IH as (last & front & E & Hl); [congruence|].
    exists last, (a :: front). split.
    + change (list_pop (a :: b :: l))
        with (r <- list_pop (b :: l) ;; Ok (fst r, a :: snd r)).
      rewrite E. reflexivity.
    + rewrite Hl. reflexivity.
Qed.

Lemma parent_spec i : 0 < i -> i = 2 * parent i + 1 \/ i = 2 * parent i + 2.
Proof.
  intros Hi. unfold parent. simpl.
  pose proof (Nat.div2_odd (i - 1)) as E.
  destruct (Nat.odd (i - 1)); simpl in E; lia.
Qed.
End ArrayFacts.

Section HeapqFacts.
Context {A : Type}.
Variable A_eq_dec : forall x y : A, {x = y} + {x <> y}.
Variable lt : A -> A -> result bool.
Variable le : A -> A -> Prop.
Variable ok : A -> Prop.
Hypothesis le_refl : forall x, le x x.
Hypothesis le_trans : forall x y z, le x y -> le y z -> le x z.
Hypothesis lt_le : forall x y, ok x -> ok y ->
  exists b : bool, lt x y = Ok b /\ (if b then le x y else le y x).
Implicit Types (l h : list A) (i j pos : nat) (x y : A).
Local Open Scope nat_scope.
Local Abbreviation ind := (ind A_eq_dec).
Local Abbreviation count := (count_occ A_eq_dec).

Lemma hole_inv_upd h pos x : hole_inv le h pos -> hole_inv le (upd h pos x) pos.
Proof.
  intros [H1 H2]. split.
  - intros i a b Hi Hne Hp Ea Eb.
    rewrite nth_error_upd_other in Ea, Eb by congruence. eauto.
  - intros c a b Hpos Hc Hp Ea Eb.
    pose proof (parent_spec c Hc). pose proof (parent_spec pos Hpos).
    rewrite nth_error_upd_other in Ea, Eb by lia. eauto.
Qed.

(** Closing the hole with an item that fits between the parent and the
    children restores the heap order. *)
Lemma place_ok h pos x :
  pos < List.length h -> hole_inv le h pos -> below le h pos x ->
  (pos = 0 \/ exists y, nth_error h (parent pos) = Some y /\ le y x) ->
  heap_inv le (upd h pos x).
Proof.
  intros Hlt [H1 H2] Hb Hp i a b Hi Ea Eb.
  pose proof (parent_spec i Hi) as Hpi.
  destruct (Nat.eq_dec i pos) as [->|Hne].
  - rewrite nth_error_upd_same in Ea by assumption.
    rewrite nth_error_upd_other in Eb by lia.
    inversion Ea; subst a. destruct Hp as [->|(y & Ey & Hle)]; [lia|].
    congruence.
  - rewrite nth_error_upd_other in Ea by congruence.
    destruct (Nat.eq_dec (parent i) pos) as [Hpp|Hpp].
    + rewrite Hpp, nth_error_upd_same in Eb by assumption.
      inversion Eb; subst b. eapply Hb; eauto.
    + rewrite nth_error_upd_other in Eb by congruence. eauto.
Qed.

Lemma siftdown_loop_ok n : forall h newitem pos old,
  pos <= n -> nth_error h pos = Some old ->
  Forall ok h -> ok newitem ->
  hole_inv le h pos -> below le h pos newitem ->
  exists h',
    siftdown_loop lt n h newitem 0 pos = Ok h' /\
    heap_inv le h' /\ List.length h' = List.length h /\ Forall ok h' /\
    forall y, count h' y + ind old y = count h y + ind newitem y.
Proof.
  induction n as [|n IH]; intros h newitem pos old Hn Eold Hok Hnew Hh Hb.
  - assert (pos = 0) by lia. subst pos.
    pose proof (nth_error_lt _ _ _ Eold) as Hlt.
    exists (upd h 0 newitem). simpl. rewrite list_set_lt by assumption.
    repeat split.
    + apply place_ok; auto.
    + apply upd_length.
    + apply Forall_upd; assumption.
    + intros y. apply count_occ_upd. assumption.
  - pose proof (nth_error_lt _ _ _ Eold) as Hlt.
    assert (Hexit : exists h',
               list_set h pos newitem = Ok h' /\
               (pos = 0 \/ (exists y, nth_error h (parent pos) = Some y /\
                                       le y newitem) ->
                heap_inv le h') /\
               List.length h' = List.length h /\ Forall ok h' /\
               forall y, count h' y + ind old y = count h y + ind newitem y).
    { exists (upd h pos newitem). rewrite list_set_lt by assumption.
      repeat split.
      - intros Hp. apply place_ok; auto.
      - apply upd_length.
      - apply Forall_upd; assumption.
      - intros y. apply count_occ_upd. assumption. }
    simpl. destruct (Nat.ltb_spec 0 pos) as [Hpos|Hpos].
    + pose proof (parent_spec pos Hpos) as Hpp.
      destruct (nth_error_some_lt h (parent pos)) as [par Epar]; [lia|].
      rewrite (list_get_Some _ _ _ Epar). simpl.
      assert (Hpar : ok par).
      { eapply Forall_forall; [exact Hok|]. eapply nth_error_In; eauto. }
      destruct (lt_le newitem par Hnew Hpar) as (b & -> & Hle). simpl.
      destruct b.
      * rewrite list_set_lt by assumption. simpl.
        destruct Hh as [H1 H2].
        destruct (IH (upd h pos par) newitem (parent pos) par) as
          (h' & E & Hinv & Hlen & Hok' & Hcnt).
        -- lia.
        -- rewrite nth_error_upd_other by lia. assumption.
        -- apply Forall_upd; assumption.
        -- assumption.
        -- split.
           ++ intros i a b Hi Hne Hp Ea Eb.
              pose proof (parent_spec i Hi) as Hpi.
              assert (i <> pos) by (intros ->; congruence).
              rewrite nth_error_upd_other in Ea by congruence.
              destruct (Nat.eq_dec (parent i) pos) as [Hip|Hip].
              ** rewrite Hip, nth_error_upd_same in Eb by assumption.
                 inversion Eb; subst b. eapply (H2 i); eauto.
              ** rewrite nth_error_upd_other in Eb by congruence. eauto.
           ++ intros c a b Hppos Hc Hp Ea Eb.
              pose proof (parent_spec _ Hppos) as Hppp.
              rewrite nth_error_upd_other in Eb by lia.
              assert (Hgp : le b par).
              { apply (H1 (parent pos)); auto; lia. }
              destruct (Nat.eq_dec c pos) as [->|Hcp].
              ** rewrite nth_error_upd_same in Ea by assumption.
                 inversion Ea; subst a. exact Hgp.
              ** rewrite nth_error_upd_other in Ea by congruence.
                 apply le_trans with par; [exact Hgp|].
                 apply (H1 c); auto; try lia. rewrite Hp. exact Epar.
        -- intros c a Hc Hp Ea.
           destruct (Nat.eq_dec c pos) as [->|Hcp].
           ++ rewrite nth_error_upd_same in Ea by assumption.
              inversion Ea; subst a. exact Hle.
           ++ rewrite nth_error_upd_other in Ea by congruence.
              apply le_trans with par; [exact Hle|].
              apply (H1 c); auto; try lia. rewrite Hp. exact Epar.
        -- exists h'. rewrite upd_length in Hlen.
           repeat split; auto.
           intros y. specialize (Hcnt y).
           pose proof (count_occ_upd A_eq_dec h pos par old y Eold). lia.
      * destruct Hexit as (h' & -> & Hinv & Hrest).
        exists h'. split; [reflexivity|]. split; [|exact Hrest].
        apply Hinv. right. eauto.
    + destruct Hexit as (h' & -> & Hinv & Hrest).
      exists h'. split; [reflexivity|]. split; [|exact Hrest].
      apply Hinv. left. lia.
Qed.

Lemma siftup_loop_ok n : forall h pos old,
  List.length h - pos <= n -> nth_error h pos = Some old ->
  Forall ok h -> hole_inv le h pos ->
  exists h' pos' old',
    siftup_loop lt n h (List.length h) pos = Ok (h', pos') /\
    nth_error h' pos' = Some old' /\ hole_inv le h' pos' /\
    List.length h <= 2 * pos' + 1 /\
    List.length h' = List.length h /\ Forall ok h' /\
    forall y, count h' y + ind old y = count h y + ind old' y.
Proof.
  induction n as [|n IH]; intros h pos old Hn Eold Hok Hh.
  - pose proof (nth_error_lt _ _ _ Eold). lia.
  - pose proof (nth_error_lt _ _ _ Eold) as Hlt.
    cbn [siftup_loop].
    destruct (Nat.ltb_spec (2 * pos + 1) (List.length h)) as [Hc|Hc].
    + (* the smaller child [c] and what is known of it *)
      assert (Hsel : exists c x,
                 (if 2 * pos + 1 + 1 <? List.length h
                  then l <- list_get h (2 * pos + 1) ;;
                       r <- list_get h (2 * pos + 1 + 1) ;;
                       b <- lt l r ;;
                       Ok (if negb b then 2 * pos + 1 + 1 else 2 * pos + 1)
                  else Ok (2 * pos + 1)) = Ok c /\
                 (c = 2 * pos + 1 \/ c = 2 * pos + 2) /\
                 nth_error h c = Some x /\
                 forall s z, (s = 2 * pos + 1 \/ s = 2 * pos + 2) ->
                             nth_error h s = Some z -> le x z).
      { destruct (nth_error_some_lt h (2 * pos + 1) Hc) as [l El].
        destruct (Nat.ltb_spec (2 * pos + 1 + 1) (List.length h)) as [Hr|Hr].
        - destruct (nth_error_some_lt h (2 * pos + 1 + 1) Hr) as [r Er].
          rewrite (list_get_Some _ _ _ El), (list_get_Some _ _ _ Er). cbn [bind].
          assert (Hl : ok l).
          { eapply Forall_forall; [exact Hok|]. eapply nth_error_In; eauto. }
          assert (Hrr : ok r).
          { eapply Forall_forall; [exact Hok|]. eapply nth_error_In; eauto. }
          destruct (lt_le l r Hl Hrr) as (b & -> & Hle). cbn [bind].
          replace (2 * pos + 1 + 1) with (2 * pos + 2) in * by lia.
          destruct b; cbn [negb].
          + exists (2 * pos + 1), l. repeat split; auto.
            intros s z [->| ->] Ez.
            * assert (z = l) by congruence. subst. apply le_refl.
            * assert (z = r) by congruence. subst. exact Hle.
          + exists (2 * pos + 2), r. repeat split; auto.
            intros s z [->| ->] Ez.
            * assert (z = l) by congruence. subst. exact Hle.
            * assert (z = r) by congruence. subst. apply le_refl.
        - exists (2 * pos + 1), l. repeat split; auto.
          intros s z [->| ->] Ez.
          + assert (z = l) by congruence. subst. apply le_refl.
          + pose proof (nth_error_lt _ _ _ Ez). lia. }
      destruct Hsel as (c & x & -> & Hcc & Ex & Hmin). cbn [bind].
      rewrite (list_get_Some _ _ _ Ex). cbn [bind].
      rewrite list_set_lt by assumption. cbn [bind].
      pose proof (nth_error_lt _ _ _ Ex) as Hclt.
      destruct Hh as [H1 H2].
      destruct (IH (upd h pos x) c x) as
        (h' & pos' & old' & E & Eo & Hinv & Hleaf & Hlen & Hok' & Hcnt).
      * rewrite upd_length. lia.
      * rewrite nth_error_upd_other by lia. assumption.
      * apply Forall_upd; [assumption|].
        eapply Forall_forall; [exact Hok|]. eapply nth_error_In; eauto.
      * split.
        -- intros i a b Hi Hne Hp Ea Eb.
           pose proof (parent_spec i Hi) as Hpi.
           destruct (Nat.eq_dec i pos) as [->|Hip].
           ++ rewrite nth_error_upd_same in Ea by assumption.
              rewrite nth_error_upd_other in Eb by lia.
              inversion Ea; subst a.
              apply (H2 c); auto; try lia.
              pose proof (parent_spec c ltac:(lia)). lia.
           ++ rewrite nth_error_upd_other in Ea by congruence.
              destruct (Nat.eq_dec (parent i) pos) as [Hpp|Hpp].
              ** rewrite Hpp, nth_error_upd_same in Eb by assumption.
                 inversion Eb; subst b.
                 apply (Hmin i); auto. lia.
              ** rewrite nth_error_upd_other in Eb by congruence. eauto.
        -- intros g a b Hcpos Hg Hp Ea Eb.
           pose proof (parent_spec g Hg) as Hpg.
           pose proof (parent_spec c Hcpos) as Hpc.
           assert (parent c = pos) by lia.
           rewrite nth_error_upd_other in Ea by lia.
           rewrite H, nth_error_upd_same in Eb by assumption.
           inversion Eb; subst b.
           apply (H1 g); auto; try lia. rewrite Hp. exact Ex.
      * rewrite upd_length in *. rewrite E.
        exists h', pos', old'.
        do 6 (split; [solve [auto]|]).
        intros y. specialize (Hcnt y).
        pose proof (count_occ_upd A_eq_dec h pos x old y Eold). lia.
    + exists h, pos, old. do 6 (split; [solve [auto]|]). reflexivity.
Qed.

Lemma heap_inv_app h1 h2 : heap_inv le (h1 ++ h2) -> heap_inv le h1.
Proof.
  intros Hh i x y Hi Ex Ey.
  apply (Hh i x y Hi); rewrite nth_error_app1; auto;
    eapply nth_error_lt; eauto.
Qed.

Lemma heap_inv_root h r :
  heap_inv le h -> nth_error h 0 = Some r ->
  forall i x, nth_error h i = Some x -> le r x.
Proof.
  intros Hh Er i. induction i as [i IH] using lt_wf_ind. intros x Ex.
  destruct (Nat.eq_dec i 0) as [->|Hne].
  - assert (x = r) by congruence. subst. apply le_refl.
  - pose proof (parent_spec i ltac:(lia)) as Hp.
    pose proof (nth_error_lt _ _ _ Ex) as Hlt.
    destruct (nth_error_some_lt h (parent i)) as [y Ey]; [lia|].
    apply le_trans with y.
    + apply (IH (parent i)); [lia | exact Ey].
    + apply (Hh i); auto. lia.
Qed.

Theorem heappush_ok h item :
  heap_inv le h -> Forall ok h -> ok item ->
  exists h',
    heappush lt h item = Ok h' /\ heap_inv le h' /\ Forall ok h' /\
    Permutation h' (item :: h).
Proof.
  intros Hh Hok Hitem. unfold heappush, _siftdown.
  rewrite length_app. simpl.
  replace (List.length h + 1 - 1) with (List.length h) by lia.
  assert (Elast : nth_error (h ++ [item]) (List.length h) = Some item).
  { rewrite nth_error_app2 by lia. now rewrite Nat.sub_diag. }
  rewrite (list_get_Some _ _ _ Elast). simpl.
  destruct (siftdown_loop_ok (List.length h) (h ++ [item]) item
              (List.length h) item) as (h' & E & Hinv & Hlen & Hok' & Hcnt);
    auto.
  - apply Forall_app. split; [assumption|]. constructor; auto.
  - split.
    + intros i a b Hi Hne Hp Ea Eb.
      pose proof (nth_error_lt _ _ _ Ea) as Hlt.
      rewrite length_app in Hlt. simpl in Hlt.
      pose proof (parent_spec i Hi).
      rewrite nth_error_app1 in Ea, Eb by lia. eapply Hh; eauto.
    + intros c a b Hpos Hc Hp Ea Eb.
      pose proof (nth_error_lt _ _ _ Ea) as Hlt.
      rewrite length_app in Hlt. simpl in Hlt.
      pose proof (parent_spec c Hc). lia.
  - intros c a Hc Hp Ea.
    pose proof (nth_error_lt _ _ _ Ea) as Hlt.
    rewrite length_app in Hlt. simpl in Hlt.
    pose proof (parent_spec c Hc). lia.
  - exists h'. repeat split; auto.
    apply (Permutation_count_occ A_eq_dec). intros y.
    specialize (Hcnt y). rewrite count_occ_snoc in Hcnt.
    rewrite count_occ_cons_ind. lia.
Qed.

Lemma heappop_single x : heappop lt [x] = Ok (x, []).
Proof. reflexivity. Qed.

Theorem heappop_ok h :
  h <> [] -> heap_inv le h -> Forall ok h ->
  exists x h',
    heappop lt h = Ok (x, h') /\ heap_inv le h' /\ Forall ok h' /\
    Permutation h (x :: h') /\ Forall (le x) h'.
Proof.
  intros Hne Hh Hok.
  destruct (list_pop_snoc h Hne) as (last & front & Epop & ->).
  unfold heappop. rewrite Epop. simpl.
  apply Forall_app in Hok. destruct Hok as [Hokf Hokl].
  inversion Hokl as [|? ? Hlast _]; subst.
  destruct front as [|r front'] eqn:Ef.
  - exists last, []. repeat split; auto.
    intros i x y Hi Ex. destruct i; discriminate.
  - rewrite <- Ef in *.
    assert (Er : nth_error front 0 = Some r) by (subst; reflexivity).
    assert (Hlen : 0 < List.length front) by (subst; simpl; lia).
    rewrite (list_get_Some _ _ _ Er). simpl.
    rewrite list_set_lt by assumption. simpl.
    unfold _siftup. rewrite upd_length.
    assert (E0 : nth_error (upd front 0 last) 0 = Some last)
      by (apply nth_error_upd_same; assumption).
    rewrite (list_get_Some _ _ _ E0). simpl.
    pose proof (heap_inv_app _ _ Hh) as Hhf.
    destruct (siftup_loop_ok (List.length front) (upd front 0 last) 0 last)
      as (h3 & pos' & old' & E & Eo & Hinv & Hleaf & Hlen3 & Hok3 & Hcnt3).
    + rewrite upd_length. lia.
    + exact E0.
    + apply Forall_upd; assumption.
    + split.
      * intros i a b Hi Hn0 Hp Ea Eb.
        rewrite nth_error_upd_other in Ea, Eb by lia. eapply Hhf; eauto.
      * intros c a b Hpos. lia.
    + rewrite upd_length in *. rewrite E. simpl.
      pose proof (nth_error_lt _ _ _ Eo) as Hlt'.
      rewrite list_set_lt by assumption. simpl.
      unfold _siftdown.
      rewrite (list_get_Some _ _ _ (nth_error_upd_same h3 pos' last Hlt')).
      simpl.
      destruct (siftdown_loop_ok pos' (upd h3 pos' last) last pos' last)
        as (h5 & E5 & Hinv5 & Hlen5 & Hok5 & Hcnt5); auto.
      * apply nth_error_upd_same. assumption.
      * apply Forall_upd; assumption.
      * apply hole_inv_upd. assumption.
      * intros c a Hc Hp Ea.
        pose proof (nth_error_lt _ _ _ Ea) as Hl.
        rewrite upd_length in Hl.
        pose proof (parent_spec c Hc). lia.
      * rewrite E5. exists r, h5.
        assert (Hperm : Permutation (front ++ [last]) (r :: h5)).
        { apply (Permutation_count_occ A_eq_dec). intros y.
          specialize (Hcnt3 y). specialize (Hcnt5 y).
          pose proof (count_occ_upd A_eq_dec front 0 last r y Er).
          pose proof (count_occ_upd A_eq_dec h3 pos' last old' y Eo).
          rewrite count_occ_snoc, count_occ_cons_ind. lia. }
        repeat split; auto.
        apply Forall_forall. intros x Hx.
        assert (Hin : In x (front ++ [last])).
        { eapply Permutation_in; [symmetry; exact Hperm|]. now right. }
        apply In_nth_error in Hin. destruct Hin as [i Ei].
        apply (heap_inv_root (front ++ [last]) r Hh) with i; auto.
        rewrite nth_error_app1 by assumption. exact Er.
Qed.
End HeapqFacts.

(** ** The queue of the search *)

Lemma spec_float_eq_dec (x y : spec_float) : {x = y} + {x <> y}.
Proof.
  decide equality; try apply Bool.bool_dec; try apply Z.eq_dec;
    apply Pos.eq_dec.
Qed.

Lemma pynum_eq_dec (x y : pynum) : {x = y} + {x <> y}.
Proof. decide equality; [apply Z.eq_dec | apply spec_float_eq_dec]. Qed.

Lemma entry_eq_dec (x y : entry) : {x = y} + {x <> y}.
Proof.
  decide equality.
  - apply list_eq_dec, string_dec.
  - decide equality. apply string_dec.
  - apply string_dec.
  - apply pynum_eq_dec.
Qed.

(** On two [int]s the three comparisons are those of the integers. *)
Lemma py_eqb_int a b : py_eqb (PInt a) (PInt b) = (a =? b).
Proof.
  unfold py_eqb. simpl.
  destruct (Z.compare_spec a b), (Z.eqb_spec a b); try reflexivity; lia.
Qed.

Lemma py_ltb_int a b : py_ltb (PInt a) (PInt b) = (a <? b).
Proof. unfold py_ltb, Z.ltb. simpl. destruct (a ?= b); reflexivity. Qed.

Lemma py_leb_int a b : py_leb (PInt a) (PInt b) = (a <=? b).
Proof. unfold py_leb, Z.leb. simpl. destruct (a ?= b); reflexivity. Qed.

(** Adding [int]s is exact. *)
Lemma py_add_int a b : py_add (PInt a) (PInt b) = Ok (PInt (a + b)).
Proof. reflexivity. Qed.

Lemma is_int_PInt x : is_int x -> x = PInt (int_value x).
Proof. destruct x; simpl; [reflexivity | contradiction]. Qed.

Lemma nonneg_int_is_int x : nonneg_int x -> is_int x /\ 0 <= int_value x.
Proof. destruct x; simpl; [auto | contradiction]. Qed.

Lemma le_acc_refl x : le_acc x x.
Proof. unfold le_acc. lia. Qed.

Lemma le_acc_trans x y z : le_acc x y -> le_acc y z -> le_acc x z.
Proof. unfold le_acc. lia. Qed.

(** Comparing two items that both have a previous mode never raises,
    whatever their numbers. *)
Lemma entry_lt_total x y :
  has_mode x -> has_mode y -> exists b : bool, entry_lt x y = Ok b.
Proof.
  unfold has_mode, entry_lt. intros Hx Hy.
  destruct (negb (py_eqb (acc x) (acc y))); [eauto|].
  destruct (negb (String.eqb (node x) (node y))); [eauto|].
  destruct (prev_mode x) as [a|]; [|congruence].
  destruct (prev_mode y) as [b|]; [|congruence].
  simpl. destruct (negb (String.eqb a b)); simpl; eauto.
Qed.

(** On [int]s the answer agrees with the order of the accumulated
    values. *)
Lemma entry_lt_le x y :
  int_item x -> int_item y ->
  exists b : bool,
    entry_lt x y = Ok b /\ (if b then le_acc x y else le_acc y x).
Proof.
  intros [Hx Ix] [Hy Iy].
  destruct (entry_lt_total x y Hx Hy) as [b E].
  exists b. split; [exact E|].
  unfold entry_lt, le_acc in *.
  rewrite (is_int_PInt _ Ix), (is_int_PInt _ Iy) in *. simpl int_value.
  rewrite py_eqb_int, py_ltb_int in E.
  destruct (Z.eqb_spec (int_value (acc x)) (int_value (acc y))) as [Eq|Hne].
  - rewrite Eq. destruct b; lia.
  - simpl in E. inversion E; subst b.
    destruct (Z.ltb_spec (int_value (acc x)) (int_value (acc y))); lia.
Qed.

Lemma heap_inv_nil {A : Type} (le : A -> A -> Prop) : heap_inv le [].
Proof. intros i x y Hi Ex. destruct i; discriminate. Qed.

Lemma heap_inv_single {A : Type} (le : A -> A -> Prop) (x : A) :
  heap_inv le [x].
Proof. intros i a b Hi Ex. destruct i as [|[|i]]; try discriminate. lia. Qed.

Lemma pop_ok pq :
  pq <> [] -> heap_inv le_acc pq ->
  Forall int_item pq \/ List.length pq = 1%nat ->
  exists e pq1,
    heappop entry_lt pq = Ok (e, pq1) /\ heap_inv le_acc pq1 /\
    Forall int_item pq1 /\ Permutation pq (e :: pq1) /\
    Forall (le_acc e) pq1.
Proof.
  intros Hne Hh [Hm|Hone].
  - apply (heappop_ok entry_eq_dec entry_lt le_acc int_item
             le_acc_refl le_acc_trans entry_lt_le); assumption.
  - destruct pq as [|e [|e' pq]]; try discriminate.
    exists e, []. rewrite heappop_single.
    repeat split; auto. apply heap_inv_nil.
Qed.

Lemma push_ok pq e :
  heap_inv le_acc pq -> Forall int_item pq -> int_item e ->
  exists pq',
    heappush entry_lt pq e = Ok pq' /\ heap_inv le_acc pq' /\
    Forall int_item pq' /\ Permutation pq' (e :: pq).
Proof.
  apply (heappush_ok entry_eq_dec entry_lt le_acc int_item
           le_acc_refl le_acc_trans entry_lt_le).
Qed.

Lemma neighbors_of_In d n x p :
  In (x, p) (neighbors_of d n) <-> In ((n, x), p) d.
Proof.
  induction d as [|[[a b] q] d IH]; simpl; [tauto|].
  destruct (String.eqb_spec a n) as [->|Hne]; simpl; rewrite IH.
  - split; (intros [E|H]; [inversion E; subst; now left | now right]).
  - split; [tauto|]. intros [E|H]; [inversion E; subst; tauto | exact H].
Qed.

Lemma neighbors_of_length d n :
  (List.length (neighbors_of d n) <= List.length d)%nat.
Proof.
  induction d as [|[[a b] q] d IH]; simpl; [lia|].
  destruct (String.eqb a n); simpl; lia.
Qed.

(** With metric time or cost the value read from the edge is its weight,
    and the new accumulated value is the sum of the three numbers, added
    from left to right. *)
Lemma new_acc_of_valid metric tp a pm p :
  valid_metric metric ->
  new_acc_of metric tp a pm p =
  (s <- py_add a (edge_weight metric p) ;;
   py_add s (penalty_of tp pm (mode p))).
Proof. intros [-> | ->]; reflexivity. Qed.

Lemma new_acc_of_int metric tp a pm p :
  valid_metric metric ->
  is_int a -> is_int (edge_weight metric p) ->
  is_int (penalty_of tp pm (mode p)) ->
  new_acc_of metric tp a pm p =
  Ok (PInt (int_value a + int_value (edge_weight metric p)
            + int_value (penalty_of tp pm (mode p)))).
Proof.
  intros Hm Ha Hw Hp. rewrite new_acc_of_valid by assumption.
  destruct a; [|contradiction].
  destruct (edge_weight metric p); [|contradiction].
  destruct (penalty_of tp pm (mode p)); [|contradiction]. reflexivity.
Qed.

(** The penalty is [tp] or the [int] 0. *)
Lemma penalty_of_cases tp pm m :
  penalty_of tp pm m = tp \/ penalty_of tp pm m = PInt 0.
Proof.
  unfold penalty_of. destruct (truthy pm && negb (eqb pm (Some m))); auto.
Qed.

Lemma penalty_of_zero pm m : penalty_of (PInt 0) pm m = PInt 0.
Proof.
  unfold penalty_of. destruct (truthy pm && negb (eqb pm (Some m)));
    reflexivity.
Qed.

(** A penalty that is an [int] and not negative is so wherever it is
    charged. *)
Lemma nonneg_int_penalty kb tp :
  nonneg_int tp -> nonneg_int_penalties kb tp.
Proof.
  intros Htp pm k p _ _.
  destruct (penalty_of_cases tp pm (mode p)) as [-> | ->];
    [exact Htp | simpl; lia].
Qed.

(** When all edges carry the same mode no penalty is ever charged. *)
Lemma uniform_mode_penalty kb tp pm k p :
  uniform_mode kb -> known_mode kb pm -> In (k, p) (edges kb) ->
  penalty_of tp pm (mode p) = PInt 0.
Proof.
  intros Hu [->|(k' & p' & Hin' & ->)] Hin; [reflexivity|].
  unfold penalty_of. rewrite (Hu _ _ _ _ Hin' Hin).
  replace (eqb (Some (mode p)) (Some (mode p))) with true
    by (symmetry; apply (eqb_refl (Some (mode p)))).
  rewrite andb_false_r. reflexivity.
Qed.

Lemma uniform_mode_penalties kb tp :
  uniform_mode kb -> nonneg_int_penalties kb tp.
Proof.
  intros Hu pm k p Hpm Hin.
  rewrite (uniform_mode_penalty kb tp pm k p Hu Hpm Hin). simpl. lia.
Qed.

(** The loop over the neighbours pushes one item per neighbour and never
    raises when each new accumulated value is an [int]. *)
Lemma expand_ok metric tp a pm nodes ns : forall pq,
  (forall n, In n ns ->
     new_acc_of metric tp a pm (snd n) =
     Ok (acc (pushed metric tp a pm nodes n))) ->
  heap_inv le_acc pq -> Forall int_item pq ->
  exists pq',
    expand ns metric tp a pm nodes pq = Ok pq' /\ heap_inv le_acc pq' /\
    Forall int_item pq' /\
    Permutation pq' (map (pushed metric tp a pm nodes) ns ++ pq).
Proof.
  induction ns as [|[x p] ns IH]; intros pq Hacc Hh Hok.
  - exists pq. simpl. auto.
  - cbn [expand].
    pose proof (Hacc (x, p) (or_introl eq_refl)) as E. cbn [snd] in E.
    rewrite E. cbn [bind].
    destruct (push_ok pq (pushed metric tp a pm nodes (x, p)) Hh Hok)
      as (pq1 & E1 & Hh1 & Hok1 & Hp1).
    { split; [unfold has_mode; simpl; discriminate | exact I]. }
    change (heappush entry_lt pq (pushed metric tp a pm nodes (x, p)) =
            Ok pq1) in E1.
    change (mkEntry (acc (pushed metric tp a pm nodes (x, p))) x
              (Some (mode p)) (nodes ++ [x]))
      with (pushed metric tp a pm nodes (x, p)).
    rewrite E1. cbn [bind].
    destruct (IH pq1) as (pq2 & -> & Hh2 & Hok2 & Hp2); auto.
    { intros n Hn. apply Hacc. now right. }
    exists pq2. repeat split; auto.
    rewrite Hp2, Hp1. simpl. symmetry. apply Permutation_middle.
Qed.

(** ** The loop invariant of the search *)

Section Search.
Variable kb : KnowledgeBase.
Variables start goal metric : string.
Variable tp : pynum.
Hypothesis Hmetric : valid_metric metric.
Hypothesis Hweights : nonneg_int_weights kb metric.
Hypothesis Hpen : nonneg_int_penalties kb tp.

Local Abbreviation inv := (search_inv kb start goal metric tp).
Local Abbreviation route' := (route kb metric tp start).

Lemma universe_start : In (start, None) (universe kb start).
Proof. now left. Qed.

Lemma universe_edge u v p :
  In ((u, v), p) (edges kb) -> In (v, Some (mode p)) (universe kb start).
Proof.
  intros Hin. right.
  apply (in_map (fun item : edge_key * props =>
                   (snd (fst item), Some (mode (snd item))))) in Hin.
  exact Hin.
Qed.

Lemma universe_known v pm :
  In (v, pm) (universe kb start) -> known_mode kb pm.
Proof.
  intros [E|Hin].
  - left. congruence.
  - right. apply in_map_iff in Hin. destruct Hin as ([k p] & E & Hin).
    exists k, p. split; [exact Hin|]. simpl in E. congruence.
Qed.

(** One step of the search from an [int]: the new value is the exact
    sum, and it is no smaller. *)
Lemma step_int a pm u v p :
  is_int a -> known_mode kb pm -> In ((u, v), p) (edges kb) ->
  new_acc_of metric tp a pm p =
    Ok (PInt (int_value a + int_value (edge_weight metric p)
              + int_value (penalty_of tp pm (mode p)))) /\
  0 <= int_value (edge_weight metric p) /\
  0 <= int_value (penalty_of tp pm (mode p)).
Proof.
  intros Ha Hpm Hin.
  destruct (nonneg_int_is_int _ (Hweights _ _ Hin)) as [Iw Hw].
  destruct (nonneg_int_is_int _ (Hpen pm _ _ Hpm Hin)) as [Ip Hp].
  split; [|split; assumption].
  apply new_acc_of_int; assumption.
Qed.

Lemma route_int nodes v pm c :
  route' nodes v pm c -> is_int c /\ known_mode kb pm.
Proof.
  induction 1 as [|nodes u pm c v p c' Hr [Ic Hk] Hin Hacc].
  - split; [exact I | now left].
  - destruct (step_int c pm u v p Ic Hk Hin) as (E & _).
    rewrite E in Hacc. inversion Hacc; subst c'.
    split; [exact I|]. right. eauto.
Qed.

Lemma init_inv : inv [mkEntry (PInt 0) start None [start]] [].
Proof.
  constructor.
  - apply heap_inv_single.
  - now right.
  - constructor; [exact I | constructor].
  - intros k v Hget. discriminate.
  - intros e [<-|[]]. simpl. constructor.
  - intros k v e Hget. discriminate.
  - intros k v Hget. discriminate.
  - left. eexists. split; [now left|]. split; [reflexivity|]. simpl. lia.
  - intros n pm v x p Hget. discriminate.
  - constructor.
  - intros k [].
  - intros e [<-|[]]. apply universe_start.
Qed.

(** Every route is covered: some queue item is at most as costly, or the
    state it ends in was visited with at most its cost. *)
Lemma route_covered pq visited nodes v pm c :
  inv pq visited -> route' nodes v pm c ->
  (exists e, In e pq /\ int_value (acc e) <= int_value c) \/
  (exists w, dict_get (v, pm) visited = Some w /\
             int_value w <= int_value c).
Proof.
  intros Hinv Hr. induction Hr as [|nodes u pm c v p c' Hr IH Hget Hacc].
  - destruct (inv_start _ _ _ _ _ _ _ Hinv) as [(e & Hin & _ & Hle)|Hv].
    + left. eauto.
    + right. exact Hv.
  - destruct (route_int _ _ _ _ Hr) as [Ic Hk].
    destruct (step_int c pm u v p Ic Hk Hget) as (E & Hw & Hp).
    rewrite E in Hacc. inversion Hacc; subst c'. simpl int_value.
    destruct IH as [(e & He & Hle)|(w & Hw' & Hle)].
    + left. exists e. split; [exact He | lia].
    + destruct (inv_closed _ _ _ _ _ _ _ Hinv u pm w v p Hw' Hget)
        as [(e & He & _ & Hle')|(w' & Hw'' & Hle')].
      * left. exists e. split; [exact He | lia].
      * right. exists w'. split; [exact Hw'' | lia].
Qed.

Lemma covered_skip pq pq1 visited e v k b :
  Permutation pq (e :: pq1) ->
  dict_get (key_of e) visited = Some v ->
  int_value v <= int_value (acc e) ->
  covered pq visited k b -> covered pq1 visited k b.
Proof.
  intros Hp Hget Hle [(e' & He' & Hk & Hb)|Hv]; [|now right].
  apply (Permutation_in _ Hp) in He'. destruct He' as [<-|He'].
  - right. exists v. rewrite <- Hk. split; [exact Hget | lia].
  - left. exists e'. auto.
Qed.

Lemma inv_skip pq pq1 visited e v :
  inv pq visited ->
  Permutation pq (e :: pq1) -> heap_inv le_acc pq1 -> Forall int_item pq1 ->
  dict_get (key_of e) visited = Some v ->
  int_value v <= int_value (acc e) ->
  inv pq1 visited.
Proof.
  intros Hinv Hp Hh Hm Hget Hle.
  assert (Hsub : forall e', In e' pq1 -> In e' pq).
  { intros e' He'. apply (Permutation_in _ (Permutation_sym Hp)). now right. }
  destruct Hinv as [I1 I2 I2a I2b I3 I4 I5 I6 I7 I8 I9 I10].
  constructor; auto.
  - left. eapply Forall_impl; [|exact Hm]. intros a [Ha _]. exact Ha.
  - eapply Forall_impl; [|exact Hm]. intros a [_ Ha]. exact Ha.
  - intros k w e' Hk He'. eauto.
  - eapply covered_skip; eauto.
  - intros n pm w x p Hw Hx. eapply covered_skip; eauto.
Qed.

Lemma covered_expand pq pq1 pq2 visited e k b :
  Permutation pq (e :: pq1) ->
  (forall e', In e' pq1 -> In e' pq2) ->
  dict_get (key_of e) visited = None ->
  covered pq visited k b ->
  covered pq2 (dict_set (key_of e) (acc e) visited) k b.
Proof.
  intros Hp Hsub Hnone [(e' & He' & Hk & Hb)|(w & Hw & Hb)].
  - apply (Permutation_in _ Hp) in He'. destruct He' as [<-|He'].
    + right. exists (acc e). rewrite <- Hk, dict_get_set_same. auto.
    + left. exists e'. auto.
  - right. exists w. split; [|exact Hb].
    rewrite dict_get_set_other; [exact Hw|]. congruence.
Qed.

Lemma inv_expand pq pq1 pq2 visited e :
  inv pq visited ->
  Permutation pq (e :: pq1) -> Forall (le_acc e) pq1 ->
  heap_inv le_acc pq2 -> Forall int_item pq2 ->
  Permutation pq2
    (map (pushed metric tp (acc e) (prev_mode e) (path e))
         (neighbors_of (edges kb) (node e)) ++ pq1) ->
  dict_get (key_of e) visited = None -> node e <> goal ->
  inv pq2 (dict_set (key_of e) (acc e) visited).
Proof.
  intros Hinv Hp Hmin Hh Hm Hp2 Hnone Hgoal.
  assert (He : In e pq).
  { apply (Permutation_in _ (Permutation_sym Hp)). now left. }
  assert (Hsub1 : forall e', In e' pq1 -> In e' pq).
  { intros e' He'. apply (Permutation_in _ (Permutation_sym Hp)). now right. }
  assert (Hsub2 : forall e', In e' pq1 -> In e' pq2).
  { intros e' He'. apply (Permutation_in _ (Permutation_sym Hp2)).
    apply in_or_app. now right. }
  assert (Hsplit : forall e', In e' pq2 ->
            (exists x p, In ((node e, x), p) (edges kb) /\
                         e' = pushed metric tp (acc e) (prev_mode e) (path e)
                                (x, p)) \/ In e' pq1).
  { intros e' He'. apply (Permutation_in _ Hp2) in He'.
    apply in_app_or in He'. destruct He' as [He'|He']; [left|now right].
    apply in_map_iff in He'. destruct He' as ([x p] & <- & Hn).
    apply neighbors_of_In in Hn. eauto. }
  destruct Hinv as [I1 I2 I2a I2b I3 I4 I5 I6 I7 I8 I9 I10].
  assert (Ie : is_int (acc e)).
  { apply (proj1 (Forall_forall _ _) I2a). exact He. }
  assert (Ke : known_mode kb (prev_mode e)).
  { apply (universe_known (node e)). apply I10. exact He. }
  constructor.
  - exact Hh.
  - left. eapply Forall_impl; [|exact Hm]. intros a [Ha _]. exact Ha.
  - eapply Forall_impl; [|exact Hm]. intros a [_ Ha]. exact Ha.
  - intros k w Hk.
    destruct (eqb_spec (key_of e) k) as [<-|Hne].
    + rewrite dict_get_set_same in Hk. inversion Hk; subst. exact Ie.
    + rewrite dict_get_set_other in Hk by assumption. eauto.
  - intros e' He'. destruct (Hsplit e' He') as [(x & p & Hin & ->)|Hin];
      [|auto].
    unfold pushed; simpl.
    apply (route_step kb metric tp start (path e) (node e) (prev_mode e)
             (acc e) x p); auto.
    apply (step_int (acc e) (prev_mode e) (node e) x p); assumption.
  - intros k w e' Hk He'.
    assert (Hwe : int_value w <= int_value (acc e)).
    { destruct (eqb_spec (key_of e) k) as [<-|Hne].
      - rewrite dict_get_set_same in Hk. inversion Hk; subst. lia.
      - rewrite dict_get_set_other in Hk by assumption. eauto. }
    destruct (Hsplit e' He') as [(x & p & Hin & ->)|Hin].
    + unfold pushed; simpl.
      destruct (step_int (acc e) (prev_mode e) _ _ _ Ie Ke Hin)
        as (_ & Hw & Hpn). lia.
    + pose proof (proj1 (Forall_forall _ _) Hmin e' Hin) as Hle.
      unfold le_acc in Hle. lia.
  - intros k w Hk.
    destruct (eqb_spec (key_of e) k) as [<-|Hne].
    + exact Hgoal.
    + rewrite dict_get_set_other in Hk by assumption. eauto.
  - eapply covered_expand; eauto.
  - intros n pm w x p Hw Hx.
    destruct (eqb_spec (key_of e) (n, pm)) as [Hk|Hne].
    + rewrite <- Hk, dict_get_set_same in Hw. inversion Hw; subst w.
      unfold key_of in Hk. inversion Hk; subst n pm.
      left. exists (pushed metric tp (acc e) (prev_mode e) (path e) (x, p)).
      split; [|split; [reflexivity | simpl; lia]].
      apply (Permutation_in _ (Permutation_sym Hp2)).
      apply in_or_app. left. apply in_map.
      apply neighbors_of_In. exact Hx.
    + rewrite dict_get_set_other in Hw by assumption.
      eapply covered_expand; eauto.
  - apply dict_set_wf. exact I8.
  - intros k Hk. apply keys_dict_set in Hk. destruct Hk as [->|Hk]; auto.
  - intros e' He'. destruct (Hsplit e' He') as [(x & p & Hin & ->)|Hin];
      [|auto].
    unfold pushed, key_of; simpl. eapply universe_edge; eauto.
Qed.

Lemma measure_skip pq pq1 visited e :
  Permutation pq (e :: pq1) ->
  (measure kb start pq1 visited < measure kb start pq visited)%nat.
Proof.
  intros Hp. apply Permutation_length in Hp. simpl in Hp.
  unfold measure. lia.
Qed.

Lemma measure_expand pq pq1 pq2 visited e :
  Permutation pq (e :: pq1) ->
  Permutation pq2
    (map (pushed metric tp (acc e) (prev_mode e) (path e))
         (neighbors_of (edges kb) (node e)) ++ pq1) ->
  dict_get (key_of e) visited = None ->
  inv pq2 (dict_set (key_of e) (acc e) visited) ->
  (measure kb start pq2 (dict_set (key_of e) (acc e) visited) <
   measure kb start pq visited)%nat.
Proof.
  intros Hp Hp2 Hnone Hinv.
  apply Permutation_length in Hp, Hp2. simpl in Hp.
  rewrite length_app, length_map in Hp2.
  pose proof (neighbors_of_length (edges kb) (node e)) as Hdeg.
  apply dict_get_None in Hnone.
  pose proof (dict_set_length_new _ (acc e) _ Hnone) as Hlen.
  pose proof (NoDup_incl_length (inv_wf _ _ _ _ _ _ _ Hinv)
                (inv_visited_univ _ _ _ _ _ _ _ Hinv)) as Hcard.
  unfold keys in Hcard. rewrite length_map, Hlen in Hcard.
  unfold measure. rewrite Hlen, Hp, Hp2.
  replace (List.length (universe kb start) - List.length visited)%nat
    with (S (List.length (universe kb start) - S (List.length visited)))
    by lia.
  rewrite Nat.mul_succ_r. lia.
Qed.

(** With enough fuel the loop returns: a cheapest route to [goal] when
    there is one, and the no-route result otherwise. *)
Lemma search_loop_ok fuel : forall pq visited,
  inv pq visited -> (measure kb start pq visited < fuel)%nat ->
  (exists nodes pm c,
     dijkstra_loop fuel kb goal metric tp pq visited =
       (Returned (Some nodes) (PInt c), kb) /\
     route' nodes goal pm (PInt c) /\
     forall nodes' pm' c', route' nodes' goal pm' c' ->
                           c <= int_value c') \/
  (dijkstra_loop fuel kb goal metric tp pq visited =
     (Returned None py_inf, kb) /\
   forall nodes' pm' c', ~ route' nodes' goal pm' c').
Proof.
  induction fuel as [|fuel IH]; intros pq visited Hinv Hlt; [lia|].
  destruct pq as [|e0 pq0].
  - right. split; [reflexivity|]. intros nodes' pm' c' Hr.
    destruct (route_covered _ _ _ _ _ _ Hinv Hr) as [(e & [] & _)|(w & Hw & _)].
    apply (inv_nogoal _ _ _ _ _ _ _ Hinv _ _ Hw). reflexivity.
  - destruct (pop_ok (e0 :: pq0)) as (e & pq1 & Epop & Hh1 & Hm1 & Hp & Hmin).
    { discriminate. }
    { exact (inv_heap _ _ _ _ _ _ _ Hinv). }
    { destruct (inv_modes _ _ _ _ _ _ _ Hinv) as [Hm|Hone]; [left|now right].
      apply Forall_forall. intros a Ha. split.
      - apply (proj1 (Forall_forall _ _) Hm). exact Ha.
      - apply (proj1 (Forall_forall _ _) (inv_ints _ _ _ _ _ _ _ Hinv)).
        exact Ha. }
    cbn [dijkstra_loop]. rewrite Epop.
    assert (He : In e (e0 :: pq0)).
    { apply (Permutation_in _ (Permutation_sym Hp)). now left. }
    assert (Ie : is_int (acc e)).
    { apply (proj1 (Forall_forall _ _) (inv_ints _ _ _ _ _ _ _ Hinv)).
      exact He. }
    destruct (String.eqb_spec (node e) goal) as [Hg|Hg].
    + left. exists (path e), (prev_mode e), (int_value (acc e)).
      rewrite <- (is_int_PInt _ Ie).
      split; [reflexivity|]. split.
      * rewrite <- Hg. apply (inv_route _ _ _ _ _ _ _ Hinv). exact He.
      * intros nodes' pm' c' Hr.
        destruct (route_covered _ _ _ _ _ _ Hinv Hr)
          as [(e' & He' & Hle)|(w & Hw & _)].
        -- apply (Permutation_in _ Hp) in He'. destruct He' as [<-|He'].
           ++ exact Hle.
           ++ pose proof (proj1 (Forall_forall _ _) Hmin e' He') as Hle'.
              unfold le_acc in Hle'. lia.
        -- exfalso. apply (inv_nogoal _ _ _ _ _ _ _ Hinv _ _ Hw). reflexivity.
    + unfold seen_better.
      destruct (dict_get _ visited) as [v|] eqn:Ev.
      * assert (Hle : int_value v <= int_value (acc e)).
        { apply (inv_mono _ _ _ _ _ _ _ Hinv _ _ _ Ev He). }
        assert (Hsb : py_leb v (acc e) = true).
        { rewrite (is_int_PInt _
                     (inv_visited_ints _ _ _ _ _ _ _ Hinv _ _ Ev)),
            (is_int_PInt _ Ie), py_leb_int.
          apply Z.leb_le. exact Hle. }
        rewrite Hsb.
        apply IH.
        -- eapply inv_skip; eauto.
        -- pose proof (measure_skip _ _ visited _ Hp). lia.
      * unfold neighbors. cbn [edges].
        destruct (expand_ok metric tp (acc e) (prev_mode e) (path e)
                    (neighbors_of (edges kb) (node e)) pq1)
          as (pq2 & Eexp & Hh2 & Hm2 & Hp2); auto.
        { intros [x p] Hn. apply neighbors_of_In in Hn.
          apply (step_int (acc e) (prev_mode e) (node e) x p); auto.
          apply (universe_known (node e)).
          apply (inv_queue_univ _ _ _ _ _ _ _ Hinv). exact He. }
        rewrite Eexp.
        assert (Hinv2 : inv pq2 (dict_set (key_of e) (acc e) visited)).
        { eapply inv_expand; eauto. }
        apply IH.
        -- exact Hinv2.
        -- apply Nat.lt_le_trans with (measure kb start (e0 :: pq0) visited);
             [|lia].
           exact (measure_expand _ _ _ visited _ Hp Hp2 Ev Hinv2).
Qed.

Lemma init_measure :
  (measure kb start [mkEntry (PInt 0) start None [start]] [] <
   fuel_bound kb)%nat.
Proof.
  unfold measure, fuel_bound, universe. simpl List.length.
  rewrite length_map, Nat.sub_0_r. lia.
Qed.

(** The search returns, whatever fuel is added to [fuel_bound]. *)
Lemma dijkstra_ok extra :
  (exists nodes pm c,
     dijkstra (fuel_bound kb + extra) kb start goal metric tp =
       (Returned (Some nodes) (PInt c), kb) /\
     route' nodes goal pm (PInt c) /\
     forall nodes' pm' c', route' nodes' goal pm' c' ->
                           c <= int_value c') \/
  (dijkstra (fuel_bound kb + extra) kb start goal metric tp =
     (Returned None py_inf, kb) /\
   forall nodes' pm' c', ~ route' nodes' goal pm' c').
Proof.
  pose proof (search_loop_ok (fuel_bound kb) _ _ init_inv init_measure) as H.
  unfold dijkstra. rewrite dijkstra_loop_more_fuel.
  - exact H.
  - destruct H as [(n & pm & c & -> & _)|[-> _]]; discriminate.
Qed.
End Search.

(** ** Routes, walks and reachability *)

Lemma route_reachable kb metric tp start nodes v pm c :
  route kb metric tp start nodes v pm c -> reachable kb start v.
Proof.
  induction 1 as [|nodes u pm c v p c' Hr IH Hget Hacc]; [constructor|].
  apply reach_step with u; [exact IH|].
  apply (in_map fst) in Hget. exact Hget.
Qed.


Lemma last_mode_cons prev p r :
  last_mode prev (p :: r) = last_mode (Some (mode p)) r.
Proof.
  unfold last_mode. simpl. destruct (rev r) as [|q l]; reflexivity.
Qed.

Lemma last_mode_snoc prev es p : last_mode prev (es ++ [p]) = Some (mode p).
Proof. unfold last_mode. rewrite rev_app_distr. reflexivity. Qed.

Lemma switches_from_snoc es : forall prev p,
  switches_from prev (es ++ [p]) =
  (switches_from prev es +
   (if truthy (last_mode prev es)
       && negb (eqb (last_mode prev es) (Some (mode p)))
    then 1 else 0))%nat.
Proof.
  induction es as [|q r IH]; intros prev p.
  - simpl. unfold last_mode. simpl. lia.
  - cbn [app switches_from]. rewrite IH, last_mode_cons. lia.
Qed.

Lemma total_weight_snoc metric es p :
  total_weight metric (es ++ [p]) =
  total_weight metric es + int_value (edge_weight metric p).
Proof. induction es as [|q r IH]; simpl; lia. Qed.

Lemma penalty_of_count tp pm m :
  int_value (penalty_of tp pm m) =
  int_value tp * Z.of_nat (if truthy pm && negb (eqb pm (Some m))
                           then 1 else 0).
Proof.
  unfold penalty_of. destruct (truthy pm && negb (eqb pm (Some m))); simpl;
    lia.
Qed.

Lemma path_cost_snoc metric tp es p :
  path_cost metric tp (es ++ [p]) =
  path_cost metric tp es + int_value (edge_weight metric p)
  + int_value (penalty_of tp (last_mode None es) (mode p)).
Proof.
  unfold path_cost, switches.
  rewrite switches_from_snoc, total_weight_snoc, penalty_of_count.
  rewrite Nat2Z.inj_add. lia.
Qed.

(** The accumulated value of a walk extended by one edge. *)
Lemma charge_snoc metric tp es : forall a pm p,
  charge metric tp a pm (es ++ [p]) =
  (c <- charge metric tp a pm es ;;
   new_acc_of metric tp c (last_mode pm es) p).
Proof.
  induction es as [|q r IH]; intros a pm p.
  - cbn [app charge bind]. unfold last_mode. simpl.
    destruct (new_acc_of metric tp a pm p); reflexivity.
  - cbn [app charge]. rewrite last_mode_cons.
    destruct (new_acc_of metric tp a pm q) as [a'|e]; [|reflexivity].
    cbn [bind]. apply IH.
Qed.

(** A route is a walk together with the value accumulated along it. *)
Lemma route_walk kb metric tp start nodes v pm c :
  route kb metric tp start nodes v pm c ->
  exists es, walk kb start nodes v es /\ pm = last_mode None es /\
             charged metric tp es = Ok c.
Proof.
  induction 1 as [|nodes u pm c v p c' Hr (es & Hw & Hpm & Hc) Hin Hacc].
  - exists []. split; [constructor|]. split; reflexivity.
  - exists (es ++ [p]). split; [econstructor; eauto|].
    split; [symmetry; apply last_mode_snoc|].
    unfold charged in *. rewrite charge_snoc, Hc. cbn [bind].
    rewrite <- Hpm. exact Hacc.
Qed.

Lemma walk_route kb metric tp start nodes v es :
  walk kb start nodes v es ->
  forall c, charged metric tp es = Ok c ->
            route kb metric tp start nodes v (last_mode None es) c.
Proof.
  induction 1 as [|nodes u es v p Hw IH Hin]; intros c Hc.
  - unfold charged in Hc. simpl in Hc. inversion Hc; subst. constructor.
  - unfold charged in *. rewrite charge_snoc in Hc.
    destruct (charge metric tp (PInt 0) None es) as [c0|e] eqn:E0;
      [|discriminate].
    cbn [bind] in Hc. rewrite last_mode_snoc.
    apply (route_step kb metric tp start nodes u (last_mode None es) c0 v p);
      auto.
Qed.

Lemma walk_ends kb start nodes v es :
  walk kb start nodes v es ->
  hd_error nodes = Some start /\ last nodes start = v.
Proof.
  induction 1 as [|nodes u es v p Hw [Hh Hl] Hin].
  - split; reflexivity.
  - split; [|apply last_last].
    destruct nodes; [discriminate | exact Hh].
Qed.

Lemma walk_edges_in kb start nodes v es :
  walk kb start nodes v es ->
  forall p, In p es -> exists k, In (k, p) (edges kb).
Proof.
  induction 1 as [|nodes u es v p Hw IH Hin]; intros q Hq; [contradiction|].
  apply in_app_or in Hq. destruct Hq as [Hq|[<-|[]]]; eauto.
Qed.

Lemma walk_known kb start nodes v es :
  walk kb start nodes v es -> known_mode kb (last_mode None es).
Proof.
  destruct 1 as [|nodes u es v p Hw Hin]; [now left|].
  right. rewrite last_mode_snoc. eauto.
Qed.


Lemma reachable_walk kb start v :
  reachable kb start v -> exists nodes es, walk kb start nodes v es.
Proof.
  induction 1 as [|u v Hr (nodes & es & IH) Hin].
  - exists [start], []. constructor.
  - apply in_map_iff in Hin. destruct Hin as ([k p] & Hk & Hin).
    simpl in Hk. subst k.
    exists (nodes ++ [v]), (es ++ [p]). econstructor; eauto.
Qed.

Lemma switches_uniform m es :
  (forall q, In q es -> mode q = m) ->
  switches_from None es = 0%nat /\ switches_from (Some m) es = 0%nat.
Proof.
  induction es as [|p r IH]; intros Hm; [split; reflexivity|].
  assert (Hp : mode p = m) by (apply Hm; now left).
  destruct IH as [_ IH]; [intros q Hq; apply Hm; now right|].
  cbn [switches_from]. rewrite Hp, IH. split; [reflexivity|].
  replace (eqb (Some m) (Some m)) with true
    by (symmetry; apply (eqb_refl (Some m))).
  rewrite andb_false_r. reflexivity.
Qed.

(** On a knowledge base of one mode a walk has no mode change. *)
Lemma walk_uniform_cost kb metric tp start nodes v es :
  uniform_mode kb -> walk kb start nodes v es ->
  path_cost metric tp es = total_weight metric es.
Proof.
  intros Hu Hwk. unfold path_cost, switches.
  destruct es as [|p0 r] eqn:Ees; [simpl; lia|].
  rewrite <- Ees in *.
  destruct (switches_uniform (mode p0) es) as [-> _]; [|simpl; lia].
  intros q Hq.
  destruct (walk_edges_in _ _ _ _ _ Hwk q Hq) as (k & Hk).
  destruct (walk_edges_in _ _ _ _ _ Hwk p0) as (k0 & Hk0);
    [subst; now left|].
  eapply Hu; eauto.
Qed.

Lemma path_cost_zero_penalty metric es :
  path_cost metric (PInt 0) es = total_weight metric es.
Proof. unfold path_cost. simpl. lia. Qed.

(** On [int] weights the exact weight of a walk is the integer sum of its
    weights. *)
Lemma walk_plain kb metric start nodes v es :
  int_weights kb metric -> walk kb start nodes v es ->
  exists w, plain_path kb metric start nodes v w /\
            (w == inject_Z (total_weight metric es))%Q.
Proof.
  intros Hi. induction 1 as [|nodes u es v p Hw (w & Hp & Hwe) Hin].
  - exists 0%Q. split; [constructor | reflexivity].
  - exists (w + inject_Z (int_value (edge_weight metric p)))%Q. split.
    + econstructor; eauto.
      rewrite (is_int_PInt _ (Hi _ _ Hin)) at 1. reflexivity.
    + rewrite total_weight_snoc, inject_Z_plus, Hwe. reflexivity.
Qed.

Lemma plain_walk kb metric start nodes v w :
  int_weights kb metric -> plain_path kb metric start nodes v w ->
  exists es, walk kb start nodes v es /\
             (w == inject_Z (total_weight metric es))%Q.
Proof.
  intros Hi. induction 1 as [|nodes u w v p q Hp (es & Hw & Hwe) Hin Hq].
  - exists []. split; [constructor | reflexivity].
  - exists (es ++ [p]). split; [econstructor; eauto|].
    rewrite (is_int_PInt _ (Hi _ _ Hin)) in Hq. simpl in Hq.
    inversion Hq; subst q.
    rewrite total_weight_snoc, inject_Z_plus, Hwe. reflexivity.
Qed.

Lemma nonneg_int_weights_int kb metric :
  nonneg_int_weights kb metric -> int_weights kb metric.
Proof.
  intros H k p Hin. apply nonneg_int_is_int. exact (H k p Hin).
Qed.

(** ** The search on non-negative [int] weights *)

Section SearchWalks.
Variable kb : KnowledgeBase.
Variables start goal metric : string.
Variable tp : pynum.
Hypothesis Hmetric : valid_metric metric.
Hypothesis Hweights : nonneg_int_weights kb metric.
Hypothesis Hpen : nonneg_int_penalties kb tp.

(** The value accumulated along a walk is its weights plus its
    penalties, exactly. *)
Lemma walk_charged nodes v es :
  walk kb start nodes v es ->
  charged metric tp es = Ok (PInt (path_cost metric tp es)).
Proof.
  induction 1 as [|nodes u es v p Hw IH Hin].
  - unfold charged, path_cost, switches. simpl.
    rewrite Z.mul_0_r. reflexivity.
  - unfold charged in *. rewrite charge_snoc, IH. cbn [bind].
    destruct (step_int kb metric tp Hmetric Hweights Hpen
                (PInt (path_cost metric tp es)) (last_mode None es) u v p)
      as (E & _); [exact I | eapply walk_known; eauto | exact Hin |].
    rewrite E, path_cost_snoc. reflexivity.
Qed.

(** The search returns, within [fuel_bound] iterations, a cheapest walk
    from [start] to [goal] with its cost, or the no-route result when
    [goal] cannot be reached. *)
Lemma dijkstra_walks extra :
  (exists nodes es,
     dijkstra (fuel_bound kb + extra) kb start goal metric tp =
       (Returned (Some nodes) (PInt (path_cost metric tp es)), kb) /\
     walk kb start nodes goal es /\
     forall nodes' es', walk kb start nodes' goal es' ->
                        path_cost metric tp es <= path_cost metric tp es') \/
  (dijkstra (fuel_bound kb + extra) kb start goal metric tp =
     (Returned None py_inf, kb) /\
   ~ reachable kb start goal).
Proof.
  destruct (dijkstra_ok kb start goal metric tp Hmetric Hweights Hpen extra)
    as [(nodes & pm & c & E & Hr & Hopt)|[E Hnone]].
  - left. destruct (route_walk _ _ _ _ _ _ _ _ Hr) as (es & Hwk & _ & Hc).
    rewrite (walk_charged _ _ _ Hwk) in Hc. inversion Hc; subst c.
    exists nodes, es. split; [exact E|]. split; [exact Hwk|].
    intros nodes' es' Hw'.
    pose proof (walk_route kb metric tp _ _ _ _ Hw' _
                  (walk_charged _ _ _ Hw')) as Hr'.
    apply (Hopt _ _ _ Hr').
  - right. split; [exact E|]. intros Hreach.
    destruct (reachable_walk _ _ _ Hreach) as (n0 & es0 & Hw0).
    pose proof (walk_route kb metric tp _ _ _ _ Hw0 _
                  (walk_charged _ _ _ Hw0)) as Hr0.
    eapply Hnone; eauto.
Qed.

(** When penalties never add to the weight of a walk, the total returned
    is the shortest-path distance. *)
Lemma dijkstra_plain_shortest extra :
  (forall nodes v es, walk kb start nodes v es ->
                      path_cost metric tp es = total_weight metric es) ->
  reachable kb start goal ->
  exists nodes d,
    dijkstra (fuel_bound kb + extra) kb start goal metric tp =
      (Returned (Some nodes) (PInt d), kb) /\
    (exists w, plain_path kb metric start nodes goal w /\
               (w == inject_Z d)%Q) /\
    shortest_distance kb metric start goal (inject_Z d).
Proof.
  intros Hplain Hreach.
  pose proof (nonneg_int_weights_int _ _ Hweights) as Hi.
  destruct (dijkstra_walks extra)
    as [(nodes & es & E & Hwk & Hopt)|[_ Hun]]; [|contradiction].
  exists nodes, (path_cost metric tp es). split; [exact E|].
  destruct (walk_plain kb metric _ _ _ _ Hi Hwk) as (w & Hp & Hwe).
  rewrite (Hplain _ _ _ Hwk).
  split; [eauto|]. split; [eauto|].
  intros nodes' w' Hp'.
  destruct (plain_walk _ _ _ _ _ _ Hi Hp') as (es' & Hwk' & Hwe').
  rewrite Hwe'. rewrite <- Zle_Qle.
  rewrite <- (Hplain _ _ _ Hwk), <- (Hplain _ _ _ Hwk').
  apply (Hopt _ _ Hwk').
Qed.
End SearchWalks.


(** ** Claims about the search on non-negative weights *)





(** The paths of [big_float_kb] and their exact weights. *)
Lemma big_float_paths nodes v w :
  plain_path big_float_kb "cost" "A" nodes v w ->
  (v = "A" /\ w == 0)%Q \/
  (v = "X" /\ w == inject_Z (10 ^ 16))%Q \/
  (v = "Y" /\ w == inject_Z (10 ^ 16 + 1))%Q \/
  (v = "W" /\ w == inject_Z (10 ^ 16 + 2))%Q \/
  (v = "G" /\ (w == inject_Z (10 ^ 16 + 3) \/
               w == inject_Z (10 ^ 16 + 2)))%Q.
Proof.
  induction 1 as [|nodes u w v p q Hp IH Hin Hq].
  - left. split; reflexivity.
  - vm_compute in Hin.
    repeat (destruct Hin as [E|Hin];
            [inversion E; subst u v p; clear E;
             vm_compute in Hq; inversion Hq; subst q; clear Hq|]);
      try contradiction;
      destruct IH as [[E Hw]|[[E Hw]|[[E Hw]|[[E Hw]|[E Hw]]]]];
      try discriminate E.
    + right; left. split; [reflexivity|]. rewrite Hw. reflexivity.
    + right; right; left. split; [reflexivity|]. rewrite Hw. reflexivity.
    + right; right; right; left. split; [reflexivity|]. rewrite Hw.
      reflexivity.
    + right; right; right; right. split; [reflexivity|]. left.
      rewrite Hw. reflexivity.
    + right; right; right; right. split; [reflexivity|]. right.
      rewrite Hw. reflexivity.
Qed.

(** The paths of [negative_edge_kb] and their weights. *)
Lemma negative_edge_paths nodes v w :
  plain_path negative_edge_kb "time" "A" nodes v w ->
  (v = "A" /\ w == 0)%Q \/
  (v = "B" /\ (w == 2 \/ w == 1))%Q \/
  (v = "C" /\ w == 3)%Q.
Proof.
  induction 1 as [|nodes u w v p q Hp IH Hin Hq].
  - left. split; reflexivity.
  - vm_compute in Hin.
    repeat (destruct Hin as [E|Hin];
            [inversion E; subst u v p; clear E;
             vm_compute in Hq; inversion Hq; subst q; clear Hq|]);
      try contradiction;
      destruct IH as [[E Hw]|[[E Hw]|[E Hw]]];
      try discriminate E.
    + right; left. split; [reflexivity|]. left. rewrite Hw. reflexivity.
    + right; right. split; [reflexivity|]. rewrite Hw. reflexivity.
    + right; left. split; [reflexivity|]. right. rewrite Hw. reflexivity.
Qed.

Lemma uniform_mode_metro kb :
  (forall k p, In (k, p) (edges kb) -> mode p = "metro") -> uniform_mode kb.
Proof. intros H k1 p1 k2 p2 H1 H2. rewrite (H _ _ H1), (H _ _ H2). reflexivity. Qed.

(** C2, as stated, fails on float weights and on negative weights, even
    with one mode and penalty 0. On [big_float_kb] the three legs of 1.0
    after A-X are lost in rounding ([1e16 + 1.0] is [1e16]): the search
    returns the path A, X, Y, W, G with the total 1e16, which is the
    weight of no path from A to G: that path weighs 1e16 + 3 and the
    shortest-path distance, by the edge A-G, is 1e16 + 2. On
    [negative_edge_kb] the search returns A, B with the total 2 as soon
    as B is popped, while A, C, B weighs 1. *)
Lemma dijkstra_uniform_mode_not_shortest :
  (uniform_mode big_float_kb /\ reachable big_float_kb "A" "G" /\
   (forall extra,
      fst (dijkstra (5 + extra) big_float_kb "A" "G" "cost" (PInt 0)) =
      Returned (Some ["A"; "X"; "Y"; "W"; "G"]) (fl (10 ^ 16) 1)) /\
   value (fl (10 ^ 16) 1) = Some (inject_Z (10 ^ 16)) /\
   ~ shortest_distance big_float_kb "cost" "A" "G" (inject_Z (10 ^ 16)) /\
   shortest_distance big_float_kb "cost" "A" "G" (inject_Z (10 ^ 16 + 2))) /\
  (uniform_mode negative_edge_kb /\ reachable negative_edge_kb "A" "B" /\
   (forall extra,
      fst (dijkstra (2 + extra) negative_edge_kb "A" "B" "time" (PInt 0)) =
      Returned (Some ["A"; "B"]) (PInt 2)) /\
   ~ shortest_distance negative_edge_kb "time" "A" "B" (inject_Z 2) /\
   shortest_distance negative_edge_kb "time" "A" "B" (inject_Z 1)).
Proof.
  split.
  - split; [|split; [|split; [|split; [|split]]]].
    + apply uniform_mode_metro. intros k p Hin. vm_compute in Hin.
      repeat (destruct Hin as [E|Hin]; [inversion E; reflexivity|]).
      contradiction.
    + apply reach_step with "A"; [constructor|]. vm_compute. tauto.
    + intros extra. unfold dijkstra. rewrite dijkstra_loop_more_fuel.
      * vm_compute. reflexivity.
      * vm_compute. discriminate.
    + vm_compute. reflexivity.
    + intros [(nodes & w & Hp & Hd) _].
      destruct (big_float_paths _ _ _ Hp)
        as [[E _]|[[E _]|[[E _]|[[E _]|[_ [Hw|Hw]]]]]];
        try discriminate E; rewrite Hw in Hd; vm_compute in Hd;
        discriminate Hd.
    + split.
      * exists ["A"; "G"], (0 + inject_Z (10 ^ 16 + 2))%Q.
        split; [|reflexivity].
        apply (plain_step big_float_kb "cost" "A" ["A"] "A" 0%Q "G"
                 (mkProps "metro" (fl (10 ^ 16 + 2) 1) (fl (10 ^ 16 + 2) 1))).
        -- constructor.
        -- vm_compute. tauto.
        -- vm_compute. reflexivity.
      * intros nodes w Hp.
        destruct (big_float_paths _ _ _ Hp)
          as [[E _]|[[E _]|[[E _]|[[E _]|[_ [Hw|Hw]]]]]];
          try discriminate E; rewrite Hw; vm_compute; discriminate.
  - assert (Hacb : plain_path negative_edge_kb "time" "A" ["A"; "C"; "B"]
                     "B" (0 + inject_Z 3 + inject_Z (-2))%Q).
    { apply (plain_step negative_edge_kb "time" "A" ["A"; "C"] "C"
               (0 + inject_Z 3)%Q "B"
               (mkProps "metro" (PInt (-2)) (PInt (-2)))).
      - apply (plain_step negative_edge_kb "time" "A" ["A"] "A" 0%Q "C"
                 (mkProps "metro" (PInt 3) (PInt 3))).
        + constructor.
        + vm_compute. tauto.
        + reflexivity.
      - vm_compute. tauto.
      - reflexivity. }
    split; [|split; [|split; [|split]]].
    + apply uniform_mode_metro. intros k p Hin. vm_compute in Hin.
      repeat (destruct Hin as [E|Hin]; [inversion E; reflexivity|]).
      contradiction.
    + apply reach_step with "A"; [constructor|]. vm_compute. tauto.
    + intros extra. unfold dijkstra. rewrite dijkstra_loop_more_fuel.
      * vm_compute. reflexivity.
      * vm_compute. discriminate.
    + intros [_ Hmin]. specialize (Hmin _ _ Hacb).
      vm_compute in Hmin. apply Hmin. reflexivity.
    + split.
      * exists ["A"; "C"; "B"], (0 + inject_Z 3 + inject_Z (-2))%Q.
        split; [exact Hacb | reflexivity].
      * intros nodes w Hp.
        destruct (negative_edge_paths _ _ _ Hp)
          as [[E _]|[[_ [Hw|Hw]]|[E _]]];
          try discriminate E; rewrite Hw; vm_compute; discriminate.
Qed.

(** C2 (amended): on a knowledge base whose edges all carry the same
    mode and whose weights under the metric, time or cost, are [int]s that
    are not negative, with transfer penalty 0, the search between two
    connected nodes returns a total equal to the classical shortest-path
    distance under that metric (and a walk of that weight). *)
Theorem dijkstra_uniform_mode_shortest (kb : KnowledgeBase)
    (start goal metric : string) (extra : nat) :
  valid_metric metric -> nonneg_int_weights kb metric ->
  uniform_mode kb ->
  reachable kb start goal ->
  exists nodes d,
    dijkstra (fuel_bound kb + extra) kb start goal metric (PInt 0) =
      (Returned (Some nodes) (PInt d), kb) /\
    (exists w, plain_path kb metric start nodes goal w /\
               (w == inject_Z d)%Q) /\
    shortest_distance kb metric start goal (inject_Z d).
Proof.
  intros Hm Hw _ Hreach.
  apply dijkstra_plain_shortest; auto.
  - apply nonneg_int_penalty. simpl. lia.
  - intros nodes v es _. apply path_cost_zero_penalty.
Qed.





Lemma metro_time : nonneg_int_weights metro_kb "time".
Proof.
  intros k p Hin. vm_compute in Hin.
  repeat (destruct Hin as [E|Hin];
          [inversion E; subst; vm_compute; discriminate|]).
  contradiction.
Defined.

Lemma metro_uniform : uniform_mode metro_kb.
Proof.
  apply uniform_mode_metro. intros k p Hin. vm_compute in Hin.
  repeat (destruct Hin as [E|Hin]; [inversion E; reflexivity|]).
  contradiction.
Defined.

Lemma metro_A_C : reachable metro_kb "A" "C".
Proof.
  apply reach_step with "B"; [apply reach_step with "A"; [constructor|]|];
    vm_compute; tauto.
Defined.

Lemma dijkstra_uniform_mode_shortest_witness :
  exists nodes d,
    dijkstra (fuel_bound metro_kb + 0) metro_kb "A" "C" "time" (PInt 0) =
      (Returned (Some nodes) (PInt d), metro_kb) /\
    (exists w, plain_path metro_kb "time" "A" nodes "C" w /\
               (w == inject_Z d)%Q) /\
    shortest_distance metro_kb "time" "A" "C" (inject_Z d).
Proof.
  apply (dijkstra_uniform_mode_shortest metro_kb "A" "C" "time" 0).
  - left. reflexivity.
  - exact metro_time.
  - exact metro_uniform.
  - exact metro_A_C.
Defined.
(** * Further properties of the knowledge base *)

Section DictMore.
Context {K V : Type} `{EqbLaws K}.
Implicit Types (d : dict K V) (k : K) (v : V).

Lemma dict_set_same_value k v d :
  dict_get k d = Some v -> dict_set k v d = d.
Proof.
  induction d as [|[k' v'] d IH]; simpl; [discriminate|].
  destruct (eqb_spec k k') as [->|Hne]; intros E.
  - congruence.
  - now rewrite IH.
Qed.

Lemma keys_dict_set_present k v d :
  In k (keys d) -> keys (dict_set k v d) = keys d.
Proof.
  induction d as [|[k' v'] d IH]; simpl; [tauto|].
  destruct (eqb_spec k k') as [->|Hne]; simpl; intros Hin; [reflexivity|].
  rewrite IH; [reflexivity|]. destruct Hin; congruence.
Qed.

Lemma keys_dict_set_absent k v d :
  ~ In k (keys d) -> keys (dict_set k v d) = keys d ++ [k].
Proof.
  induction d as [|[k' v'] d IH]; simpl; intros Hni; [reflexivity|].
  destruct (eqb_spec k k') as [->|Hne]; simpl; [tauto|].
  rewrite IH; tauto.
Qed.

Lemma dict_set_app_absent k v d d' :
  ~ In k (keys d) -> dict_set k v (d ++ d') = d ++ dict_set k v d'.
Proof.
  induction d as [|[k' v'] d IH]; simpl; intros Hni; [reflexivity|].
  destruct (eqb_spec k k') as [->|Hne]; [tauto|].
  rewrite IH; tauto.
Qed.

Lemma In_dict_set_inv k v d k' v' :
  In (k', v') (dict_set k v d) -> (k', v') = (k, v) \/ In (k', v') d.
Proof.
  induction d as [|[k0 v0] d IH]; simpl.
  - intros [E|[]]. left. congruence.
  - destruct (eqb_spec k k0) as [->|Hne]; simpl.
    + intros [E|Hin]; [left; congruence | tauto].
    + intros [E|Hin]; [tauto|]. apply IH in Hin. tauto.
Qed.
End DictMore.

Lemma add_edge_get_new u v m t c b kb :
  dict_get (u, v) (edges (add_edge u v m t c b kb)) = Some (mkProps m t c).
Proof.
  unfold add_edge. destruct b; simpl.
  - destruct (eqb_spec (v, u) (u, v)) as [E|Hne].
    + rewrite E. apply dict_get_set_same.
    + rewrite dict_get_set_other by assumption. apply dict_get_set_same.
  - apply dict_get_set_same.
Qed.

Lemma add_edge_get_reverse u v m t c kb :
  dict_get (v, u) (edges (add_edge u v m t c true kb)) = Some (mkProps m t c).
Proof. unfold add_edge. simpl. apply dict_get_set_same. Qed.

(** X1: Looking up what [add_edge] has stored: the edge holds the given
    attributes, so does its reverse when [bidirectional] is true, and
    every other key reads as before. *)
Theorem add_edge_lookup (u v m : string) (t c : pynum) (b : bool)
    (kb : KnowledgeBase) :
  dict_get (u, v) (edges (add_edge u v m t c b kb)) = Some (mkProps m t c) /\
  (b = true ->
   dict_get (v, u) (edges (add_edge u v m t c b kb)) = Some (mkProps m t c)) /\
  (forall k, k <> (u, v) -> (b = true -> k <> (v, u)) ->
     dict_get k (edges (add_edge u v m t c b kb)) = dict_get k (edges kb)).
Proof.
  split; [apply add_edge_get_new|]. split.
  - intros ->. apply add_edge_get_reverse.
  - intros k H1 H2. apply add_edge_get_other.
    destruct b; simpl; unfold swap_key; simpl; intuition congruence.
Qed.

(** X2: Entering the same fact a second time changes nothing. *)
Theorem add_edge_twice (u v m : string) (t c : pynum) (b : bool)
    (kb : KnowledgeBase) :
  add_edge u v m t c b (add_edge u v m t c b kb) = add_edge u v m t c b kb.
Proof.
  pose proof (add_edge_get_new u v m t c b kb) as H1.
  destruct b.
  - pose proof (add_edge_get_reverse u v m t c kb) as H2.
    unfold add_edge in *. simpl in *.
    rewrite (dict_set_same_value (u, v)) by exact H1.
    rewrite (dict_set_same_value (v, u)) by exact H2. reflexivity.
  - unfold add_edge in *. simpl in *.
    rewrite (dict_set_same_value (u, v)) by exact H1. reflexivity.
Qed.

(** X3: No multi-edges: [add_edge] keeps the keys unique, and when the keys
    it writes are already present it overwrites them where they stand,
    leaving the list of keys as it was. *)
Theorem add_edge_overwrites (u v m : string) (t c : pynum) (b : bool)
    (kb : KnowledgeBase) :
  dict_wf (edges kb) ->
  In (u, v) (keys (edges kb)) ->
  (b = true -> In (v, u) (keys (edges kb))) ->
  dict_wf (edges (add_edge u v m t c b kb)) /\
  keys (edges (add_edge u v m t c b kb)) = keys (edges kb).
Proof.
  intros Hwf Huv Hvu. split; [apply add_edge_wf, Hwf|].
  unfold add_edge. destruct b; simpl.
  - rewrite keys_dict_set_present.
    + apply keys_dict_set_present. exact Huv.
    + apply keys_dict_set. right. auto.
  - apply keys_dict_set_present. exact Huv.
Qed.

Lemma add_edge_overwrites_witness :
  dict_wf (edges (add_edge "A" "B" "bus" (PInt 9) (fl 1 1) true one_line_kb)) /\
  keys (edges (add_edge "A" "B" "bus" (PInt 9) (fl 1 1) true one_line_kb)) =
  keys (edges one_line_kb).
Proof.
  apply (add_edge_overwrites "A" "B" "bus" (PInt 9) (fl 1 1) true one_line_kb).
  - apply add_edge_wf. constructor.
  - vm_compute. tauto.
  - intros _. vm_compute. tauto.
Defined.

(** X4: [neighbors] yields exactly the edges that leave [node], each
    destination once, and leaves the knowledge base as it was. *)
Theorem neighbors_complete (kb : KnowledgeBase) (n : string) :
  dict_wf (edges kb) ->
  (forall x p, In (x, p) (fst (neighbors kb n)) <->
               dict_get (n, x) (edges kb) = Some p) /\
  NoDup (map fst (fst (neighbors kb n))) /\
  snd (neighbors kb n) = kb.
Proof.
  intros Hwf. unfold neighbors. simpl. split; [|split; [|reflexivity]].
  - intros x p. rewrite neighbors_of_In. split.
    + apply In_dict_get. exact Hwf.
    + apply dict_get_In.
  - unfold dict_wf in Hwf.
    induction (edges kb) as [|[[a b] q] d IH]; simpl; [constructor|].
    simpl in Hwf. inversion Hwf as [|? ? Hni Hnd]; subst.
    destruct (String.eqb_spec a n) as [->|Hne]; simpl; [|auto].
    constructor; [|auto].
    intros Hin. apply in_map_iff in Hin. destruct Hin as ([x p] & Hx & Hin).
    simpl in Hx. subst x. apply neighbors_of_In in Hin.
    apply Hni. apply (in_map fst) in Hin. exact Hin.
Qed.

Lemma neighbors_complete_witness :
  (forall x p, In (x, p) (fst (neighbors fork_kb "A")) <->
               dict_get ("A", x) (edges fork_kb) = Some p) /\
  NoDup (map fst (fst (neighbors fork_kb "A"))) /\
  snd (neighbors fork_kb "A") = fork_kb.
Proof.
  apply (neighbors_complete fork_kb "A").
  repeat apply add_edge_wf. constructor.
Defined.

Lemma add_all_false_app new : forall d d',
  (forall e, In e new -> ~ In (new_edge_key e) (keys d)) ->
  edges (add_all false new (mkKB (d ++ d'))) =
  d ++ edges (add_all false new (mkKB d')).
Proof.
  induction new as [|[[[[u v] m] t] c] new IH]; intros d d' Hni;
    [reflexivity|].
  rewrite !add_all_cons. unfold add_edge. cbn [edges].
  rewrite dict_set_app_absent.
  - apply IH. intros e He. apply Hni. now right.
  - apply (Hni (u, v, m, t, c)). now left.
Qed.

Lemma add_all_false_items new : forall kb k p,
  In (k, p) (edges (add_all false new kb)) ->
  In (k, p) (edges kb) \/
  exists u v m t c, In (u, v, m, t, c) new /\ k = (u, v) /\ p = mkProps m t c.
Proof.
  induction new as [|[[[[u v] m] t] c] new IH]; intros kb k p Hin;
    [now left|].
  rewrite add_all_cons in Hin. apply IH in Hin.
  destruct Hin as [Hin|(u' & v' & m' & t' & c' & Hin & Hk & Hp)].
  - unfold add_edge in Hin. cbn [edges] in Hin.
    apply In_dict_set_inv in Hin. destruct Hin as [E|Hin]; [|now left].
    inversion E; subst. right. exists u, v, m, t, c.
    split; [now left | split; reflexivity].
  - right. exists u', v', m', t', c'. split; [now right | tauto].
Qed.

(** X5: [make_bidirectional] leaves every existing item where it stands,
    with its attributes, and appends after them the reverses that were
    missing: each appended item repeats the attributes of the edge it
    reverses. *)
Theorem make_bidirectional_appends (kb : KnowledgeBase) :
  exists added,
    edges (make_bidirectional kb) = edges kb ++ added /\
    forall u v p, In ((u, v), p) added ->
      In ((v, u), p) (edges kb) /\ ~ In (u, v) (keys (edges kb)).
Proof.
  exists (edges (add_all false
                   (symmetry_new_edges (edges kb) (edges kb)) (mkKB []))).
  split.
  - unfold make_bidirectional. destruct kb as [d]. cbn [edges].
    rewrite <- (app_nil_r d) at 3. apply add_all_false_app.
    intros e He. apply symmetry_new_edges_In in He.
    destruct He as (u & v & p & _ & Hni & ->). exact Hni.
  - intros u v p Hin. apply add_all_false_items in Hin.
    destruct Hin as [[]|(u' & v' & m & t & c & Hin & Hk & ->)].
    inversion Hk; subst u' v'. apply symmetry_new_edges_In in Hin.
    destruct Hin as (a & b & q & Hin & Hni & E). inversion E; subst.
    split; [|exact Hni]. destruct q; exact Hin.
Qed.

(** X6: [make_bidirectional] changes nothing exactly when every key already
    has its reverse. *)
Theorem make_bidirectional_noop_iff (kb : KnowledgeBase) :
  make_bidirectional kb = kb <-> sym_keys kb.
Proof.
  split.
  - intros E u v Hin. rewrite <- E in *. apply make_bidirectional_closed.
    exact Hin.
  - intros Hs. unfold make_bidirectional.
    rewrite symmetry_new_edges_nil; [reflexivity|].
    intros u v p Hin. apply Hs. apply (in_map fst) in Hin. exact Hin.
Qed.

Lemma transfer_new_edges_walk kb pt e :
  In e (transfer_new_edges (edges kb) (edges kb) (edges kb) pt) ->
  exists b d, e = (b, d, "walk", pt, zero_float) /\ b <> d /\
              ~ In (b, d) (keys (edges kb)).
Proof.
  intros He. apply transfer_new_edges_In in He.
  destruct He as (a & b & p1 & d & p2 & _ & _ & Hbd & _ & Hni & ->).
  eauto.
Qed.

Lemma add_all_true_get new pt : forall kb k p,
  (forall e, In e new -> exists b d, e = (b, d, "walk", pt, zero_float)) ->
  dict_get k (edges (add_all true new kb)) = Some p ->
  dict_get k (edges kb) = Some p \/ p = walk_props pt.
Proof.
  induction new as [|e new IH]; intros kb k p Hw Hget; [now left|].
  destruct (Hw e (or_introl eq_refl)) as (b & d & ->).
  rewrite add_all_cons in Hget.
  apply IH in Hget; [|intros e He; apply Hw; now right].
  destruct Hget as [Hget|Hp]; [|now right].
  destruct (eqb_spec k (b, d)) as [->|H1].
  - rewrite add_edge_get_new in Hget. right. unfold walk_props. congruence.
  - destruct (eqb_spec k (d, b)) as [->|H2].
    + rewrite add_edge_get_reverse in Hget. right. unfold walk_props.
      congruence.
    + left. rewrite add_edge_get_other in Hget; [exact Hget|].
      simpl. unfold swap_key. simpl. intuition congruence.
Qed.

Lemma edge_key_eq_dec (x y : edge_key) : {x = y} + {x <> y}.
Proof. decide equality; apply string_dec. Qed.

Lemma add_all_true_written new pt : forall kb k,
  (forall e, In e new -> exists b d, e = (b, d, "walk", pt, zero_float)) ->
  In k (written_keys true new) ->
  dict_get k (edges (add_all true new kb)) = Some (walk_props pt).
Proof.
  induction new as [|e new IH]; intros kb k Hw Hin; [contradiction|].
  destruct (Hw e (or_introl eq_refl)) as (b & d & ->).
  rewrite add_all_cons.
  destruct (in_dec edge_key_eq_dec k (written_keys true new)) as [Hr|Hr].
  - apply IH; [intros e He; apply Hw; now right | exact Hr].
  - rewrite add_all_get_other by exact Hr.
    apply written_keys_cons in Hin. destruct Hin as [Hin|Hin]; [|contradiction].
    simpl in Hin. unfold swap_key in Hin. simpl in Hin.
    destruct Hin as [<-|[<-|[]]].
    + apply add_edge_get_new.
    + apply add_edge_get_reverse.
Qed.

Lemma transfer_new_edges_shape kb pt e :
  In e (transfer_new_edges (edges kb) (edges kb) (edges kb) pt) ->
  exists b d, e = (b, d, "walk", pt, zero_float).
Proof.
  intros He. apply transfer_new_edges_walk in He.
  destruct He as (b & d & -> & _). eauto.
Qed.

(** X7: [add_transfers] removes no key, and every edge of the result either
    reads as before or is a walk edge with the given penalty time and
    cost 0. *)
Theorem add_transfers_only_walk (pt : pynum) (kb : KnowledgeBase) :
  (forall k, In k (keys (edges kb)) ->
             In k (keys (edges (add_transfers pt kb)))) /\
  (forall k p, dict_get k (edges (add_transfers pt kb)) = Some p ->
               dict_get k (edges kb) = Some p \/ p = walk_props pt).
Proof.
  split.
  - intros k Hin. unfold add_transfers. apply add_all_keys. now left.
  - intros k p. unfold add_transfers. apply add_all_true_get.
    apply transfer_new_edges_shape.
Qed.

(** X8: The transfer rule at work: when two edges leave one origin towards
    different destinations by different modes, then after
    [add_transfers] the two destinations are joined in both directions;
    if the edge between them was missing, both directions are walk
    edges with the given penalty. *)
Theorem add_transfers_links (pt : pynum) (kb : KnowledgeBase)
    (a b d : string) (p1 p2 : props) :
  In ((a, b), p1) (edges kb) -> In ((a, d), p2) (edges kb) ->
  b <> d -> mode p1 <> mode p2 ->
  In (b, d) (keys (edges (add_transfers pt kb))) /\
  In (d, b) (keys (edges (add_transfers pt kb))) /\
  (~ In (b, d) (keys (edges kb)) ->
   dict_get (b, d) (edges (add_transfers pt kb)) = Some (walk_props pt) /\
   dict_get (d, b) (edges (add_transfers pt kb)) = Some (walk_props pt)).
Proof.
  intros H1 H2 Hbd Hm.
  assert (Hnew : forall x y q1 q2,
            In ((a, x), q1) (edges kb) -> In ((a, y), q2) (edges kb) ->
            x <> y -> mode q1 <> mode q2 ->
            ~ In (x, y) (keys (edges kb)) ->
            In (x, y) (written_keys true
                         (transfer_new_edges (edges kb) (edges kb)
                            (edges kb) pt)) /\
            In (y, x) (written_keys true
                         (transfer_new_edges (edges kb) (edges kb)
                            (edges kb) pt))).
  { intros x y q1 q2 G1 G2 Hxy Hq Hni.
    assert (He : In (x, y, "walk", pt, zero_float)
                   (transfer_new_edges (edges kb) (edges kb) (edges kb) pt)).
    { apply transfer_new_edges_In. exists a, x, q1, y, q2. tauto. }
    split; unfold written_keys; apply in_flat_map;
      exists (x, y, "walk", pt, zero_float); (split; [exact He|]); simpl;
      unfold swap_key; simpl; tauto. }
  assert (Hkeys : forall x y q1 q2,
            In ((a, x), q1) (edges kb) -> In ((a, y), q2) (edges kb) ->
            x <> y -> mode q1 <> mode q2 ->
            In (x, y) (keys (edges (add_transfers pt kb)))).
  { intros x y q1 q2 G1 G2 Hxy Hq. unfold add_transfers.
    apply add_all_keys.
    destruct (in_dec edge_key_eq_dec (x, y) (keys (edges kb))) as [Hi|Hi];
      [now left|right].
    apply (Hnew x y q1 q2); assumption. }
  split; [eapply Hkeys; eauto|].
  split; [eapply (Hkeys d b); eauto|].
  intros Hni. destruct (Hnew b d p1 p2 H1 H2 Hbd Hm Hni) as [W1 W2].
  unfold add_transfers.
  split; apply add_all_true_written; auto; apply transfer_new_edges_shape.
Qed.

Lemma add_transfers_links_witness :
  In ("B", "C") (keys (edges (add_transfers (fl 3 1) fork_kb))) /\
  In ("C", "B") (keys (edges (add_transfers (fl 3 1) fork_kb))) /\
  (~ In ("B", "C") (keys (edges fork_kb)) ->
   dict_get ("B", "C") (edges (add_transfers (fl 3 1) fork_kb)) =
     Some (walk_props (fl 3 1)) /\
   dict_get ("C", "B") (edges (add_transfers (fl 3 1) fork_kb)) =
     Some (walk_props (fl 3 1))).
Proof.
  apply (add_transfers_links (fl 3 1) fork_kb "A" "B" "C"
           (mkProps "metro" (PInt 4) (fl 15 10)) (mkProps "bus" (PInt 6) (fl 1 1))).
  - vm_compute. tauto.
  - vm_compute. tauto.
  - discriminate.
  - discriminate.
Defined.

Lemma add_transfers_get_old pt kb k :
  sym_keys kb -> In k (keys (edges kb)) ->
  dict_get k (edges (add_transfers pt kb)) = dict_get k (edges kb).
Proof.
  intros Hs Hin. unfold add_transfers. apply add_all_get_other.
  intros Hw. apply written_keys_true_inv in Hw.
  destruct Hw as (e & He & Hk). apply transfer_new_edges_walk in He.
  destruct He as (b & d & -> & _ & Hni). simpl in Hk.
  unfold swap_key in Hk. simpl in Hk.
  destruct Hk as [->| ->]; [contradiction|].
  apply Hni. apply Hs. exact Hin.
Qed.

Lemma add_transfers_sym pt kb : sym_keys kb -> sym_keys (add_transfers pt kb).
Proof.
  intros Hs u v. unfold add_transfers. rewrite !add_all_keys.
  intros [Hin|Hw]; [left; apply Hs; exact Hin|right].
  unfold written_keys in *. apply in_flat_map in Hw.
  destruct Hw as (e & He & Hk). apply in_flat_map. exists e.
  split; [exact He|]. simpl in *. unfold swap_key in *.
  destruct (new_edge_key e) as [x y]. simpl in *.
  destruct Hk as [E|[E|[]]]; inversion E; subst; tauto.
Qed.

(** X9: On a knowledge base whose keys all have their reverse, the transfer
    rule rewrites no existing edge and the keys of the result all have
    their reverse too. *)
Theorem add_transfers_keeps_symmetric (pt : pynum) (kb : KnowledgeBase) :
  sym_keys kb ->
  sym_keys (add_transfers pt kb) /\
  forall k, In k (keys (edges kb)) ->
    dict_get k (edges (add_transfers pt kb)) = dict_get k (edges kb).
Proof.
  intros Hs. split; [apply add_transfers_sym, Hs|].
  intros k. apply add_transfers_get_old, Hs.
Qed.

Lemma add_transfers_keeps_symmetric_witness :
  sym_keys (add_transfers (fl 3 1) fork_kb) /\
  forall k, In k (keys (edges fork_kb)) ->
    dict_get k (edges (add_transfers (fl 3 1) fork_kb)) = dict_get k (edges fork_kb).
Proof.
  apply (add_transfers_keeps_symmetric (fl 3 1) fork_kb).
  intros u v Hin. vm_compute in Hin. vm_compute.
  repeat (destruct Hin as [E|Hin]; [inversion E; subst; tauto|]).
  contradiction.
Defined.

Lemma make_bidirectional_sym kb : sym_keys (make_bidirectional kb).
Proof. intros u v. apply make_bidirectional_closed. Qed.

(** X10: The two rules in the order the program applies them: after
    [make_bidirectional] and then [add_transfers], another
    [make_bidirectional] finds nothing to add, and the edges that the
    symmetry rule left are all still there with their attributes. *)
Theorem rules_in_program_order (pt : pynum) (kb : KnowledgeBase) :
  make_bidirectional (add_transfers pt (make_bidirectional kb)) =
  add_transfers pt (make_bidirectional kb) /\
  forall k, In k (keys (edges (make_bidirectional kb))) ->
    dict_get k (edges (add_transfers pt (make_bidirectional kb))) =
    dict_get k (edges (make_bidirectional kb)).
Proof.
  split.
  - unfold make_bidirectional at 1.
    rewrite symmetry_new_edges_nil; [reflexivity|].
    intros u v p Hin.
    apply (add_transfers_sym pt _ (make_bidirectional_sym kb)).
    apply (in_map fst) in Hin. exact Hin.
  - intros k. apply add_transfers_get_old, make_bidirectional_sym.
Qed.

(** * The station list and option 1 of the menu *)

Lemma insert_sorted_In s l y : In y (insert_sorted s l) <-> y = s \/ In y l.
Proof.
  induction l as [|x r IH]; simpl; [intuition congruence|].
  destruct (String_as_OT.compare_spec s x) as [E|L|G]; simpl.
  - subst. intuition congruence.
  - intuition congruence.
  - rewrite IH. intuition congruence.
Qed.

Lemma sorted_set_In l y : In y (sorted_set l) <-> In y l.
Proof.
  induction l as [|x r IH]; simpl; [tauto|].
  rewrite insert_sorted_In, IH. intuition congruence.
Qed.

Lemma insert_sorted_sorted s l :
  StronglySorted String_as_OT.lt l ->
  StronglySorted String_as_OT.lt (insert_sorted s l).
Proof.
  induction 1 as [|x r Hs IH Hall]; simpl; [repeat constructor|].
  destruct (String_as_OT.compare_spec s x) as [E|L|G].
  - constructor; assumption.
  - constructor; [constructor; assumption|].
    constructor; [exact L|].
    eapply Forall_impl; [|exact Hall]. intros y Hy.
    eapply String_as_OT.lt_strorder; eauto.
  - constructor; [exact IH|].
    apply Forall_forall. intros y Hy. apply insert_sorted_In in Hy.
    destruct Hy as [->|Hy]; [exact G|].
    eapply Forall_forall in Hall; eauto.
Qed.

Lemma sorted_set_sorted l : StronglySorted String_as_OT.lt (sorted_set l).
Proof.
  induction l as [|x r IH]; simpl; [constructor|].
  apply insert_sorted_sorted, IH.
Qed.

(** Two strictly increasing lists with the same elements are equal. *)
Lemma sorted_unique l1 : forall l2,
  StronglySorted String_as_OT.lt l1 -> StronglySorted String_as_OT.lt l2 ->
  (forall x, In x l1 <-> In x l2) -> l1 = l2.
Proof.
  assert (Hirr : forall x, ~ String_as_OT.lt x x).
  { intros x. apply (StrictOrder_Irreflexive x). }
  assert (Htr : forall x y z, String_as_OT.lt x y -> String_as_OT.lt y z ->
                              String_as_OT.lt x z).
  { intros x y z. apply (StrictOrder_Transitive x y z). }
  induction l1 as [|a r1 IH]; intros [|b r2] S1 S2 Heq.
  - reflexivity.
  - exfalso. apply (Heq b). now left.
  - exfalso. apply (Heq a). now left.
  - inversion S1 as [|? ? S1' A1]; subst.
    inversion S2 as [|? ? S2' A2]; subst.
    assert (a = b).
    { destruct (proj1 (Heq a) (or_introl eq_refl)) as [E|Ha]; [auto|].
      destruct (proj2 (Heq b) (or_introl eq_refl)) as [E|Hb]; [auto|].
      exfalso. apply (Hirr a). apply Htr with b.
      - eapply Forall_forall in A1; eauto.
      - eapply Forall_forall in A2; eauto. }
    subst b. f_equal. apply IH; auto.
    intros x. split; intros Hx.
    + destruct (proj1 (Heq x) (or_intror Hx)) as [E|Hx']; [|exact Hx'].
      subst x. exfalso. apply (Hirr a).
      eapply Forall_forall in A1; eauto.
    + destruct (proj2 (Heq x) (or_intror Hx)) as [E|Hx']; [|exact Hx'].
      subst x. exfalso. apply (Hirr a).
      eapply Forall_forall in A2; eauto.
Qed.

Lemma station_names_In kb s :
  In s (station_names kb) <->
  exists u v, In (u, v) (keys (edges kb)) /\ (s = u \/ s = v).
Proof.
  unfold station_names. rewrite in_app_iff, !in_map_iff. split.
  - intros [([u v] & <- & Hin)|([u v] & <- & Hin)]; exists u, v; simpl; auto.
  - intros (u & v & Hin & [->| ->]); [left|right]; exists (u, v); auto.
Qed.

(** X11: The station list of options 2 and 3 is strictly increasing, hence
    free of duplicates, and holds exactly the names that occur as origin
    or destination of some edge. *)
Theorem estaciones_spec (kb : KnowledgeBase) :
  StronglySorted String_as_OT.lt (estaciones kb) /\
  forall s, In s (estaciones kb) <->
            exists u v, In (u, v) (keys (edges kb)) /\ (s = u \/ s = v).
Proof.
  split; [apply sorted_set_sorted|].
  intros s. unfold estaciones. rewrite sorted_set_In. apply station_names_In.
Qed.

Lemma estaciones_ext kb1 kb2 :
  (forall s, In s (station_names kb1) <-> In s (station_names kb2)) ->
  estaciones kb1 = estaciones kb2.
Proof.
  intros Heq. apply sorted_unique; try apply sorted_set_sorted.
  intros x. unfold estaciones. rewrite !sorted_set_In. apply Heq.
Qed.

(** X12: Neither rule adds or removes a station: the station list is the same
    before and after [make_bidirectional] and [add_transfers]. *)
Theorem rules_keep_stations (pt : pynum) (kb : KnowledgeBase) :
  estaciones (make_bidirectional kb) = estaciones kb /\
  estaciones (add_transfers pt kb) = estaciones kb.
Proof.
  split; apply estaciones_ext; intros s; rewrite !station_names_In.
  - split.
    + intros (u & v & Hin & Hs). apply make_bidirectional_keys in Hin.
      unfold swap_key in Hin. simpl in Hin.
      destruct Hin as [Hin|[Hin _]]; [exists u, v | exists v, u]; tauto.
    + intros (u & v & Hin & Hs). exists u, v. split; [|exact Hs].
      apply make_bidirectional_keys. now left.
  - split.
    + intros (u & v & Hin & Hs). unfold add_transfers in Hin.
      apply add_all_keys in Hin. destruct Hin as [Hin|Hw]; [eauto|].
      apply written_keys_true_inv in Hw. destruct Hw as (e & He & Hk).
      apply transfer_new_edges_In in He.
      destruct He as (a & b & p1 & d & p2 & H1 & H2 & _ & _ & _ & ->).
      apply (in_map fst) in H1, H2. simpl in H1, H2, Hk.
      unfold swap_key in Hk. simpl in Hk.
      destruct Hk as [E|E]; inversion E; subst u v;
        destruct Hs as [->| ->];
        first [ exists a, b; split; [exact H1 | tauto]
              | exists a, d; split; [exact H2 | tauto] ].
    + intros (u & v & Hin & Hs). exists u, v. split; [|exact Hs].
      unfold add_transfers. apply add_all_keys. now left.
Qed.

(** X13: Option 1 stores what was entered: after it the route reads with the
    entered attributes in both directions, whatever the rules added, and
    its two ends are in the station list. *)
Theorem menu_add_route_stores (u v m : string) (t c : pynum)
    (kb : KnowledgeBase) :
  dict_get (u, v) (edges (menu_add_route u v m t c kb)) =
    Some (mkProps m t c) /\
  dict_get (v, u) (edges (menu_add_route u v m t c kb)) =
    Some (mkProps m t c) /\
  In u (estaciones (menu_add_route u v m t c kb)) /\
  In v (estaciones (menu_add_route u v m t c kb)).
Proof.
  unfold menu_add_route.
  set (kb1 := add_edge u v m t c true kb).
  assert (G1 : dict_get (u, v) (edges kb1) = Some (mkProps m t c))
    by apply add_edge_get_new.
  assert (G2 : dict_get (v, u) (edges kb1) = Some (mkProps m t c))
    by apply add_edge_get_reverse.
  assert (K1 : In (u, v) (keys (edges kb1))).
  { apply dict_get_In in G1. apply (in_map fst) in G1. exact G1. }
  assert (K2 : In (v, u) (keys (edges kb1))).
  { apply dict_get_In in G2. apply (in_map fst) in G2. exact G2. }
  assert (M1 : In (u, v) (keys (edges (make_bidirectional kb1))))
    by (apply make_bidirectional_keys; now left).
  assert (M2 : In (v, u) (keys (edges (make_bidirectional kb1))))
    by (apply make_bidirectional_keys; now left).
  pose proof (make_bidirectional_sym kb1) as Hs.
  split; [|split].
  - rewrite add_transfers_get_old, make_bidirectional_get_old; assumption.
  - rewrite add_transfers_get_old, make_bidirectional_get_old; assumption.
  - assert (T1 : In (u, v) (keys (edges (add_transfers (fl 3 1)
                                           (make_bidirectional kb1))))).
    { unfold add_transfers. apply add_all_keys. now left. }
    split; unfold estaciones; apply sorted_set_In, station_names_In;
      exists u, v; auto.
Qed.

(** * Further properties of the search *)

(** ** What any run may end with *)

Lemma entry_lt_any x y :
  has_mode x -> has_mode y ->
  exists b : bool,
    entry_lt x y = Ok b /\ (if b then any_order x y else any_order y x).
Proof.
  intros Hx Hy. destruct (entry_lt_total x y Hx Hy) as [b E].
  exists b. split; [exact E | destruct b; exact I].
Qed.

Lemma heap_inv_any pq : heap_inv any_order pq.
Proof. intros i x y _ _ _. exact I. Qed.

Lemma pop_any pq :
  pq <> [] -> Forall has_mode pq \/ List.length pq = 1%nat ->
  exists e pq1,
    heappop entry_lt pq = Ok (e, pq1) /\ Forall has_mode pq1 /\
    Permutation pq (e :: pq1).
Proof.
  intros Hne [Hm|Hone].
  - destruct (heappop_ok entry_eq_dec entry_lt any_order has_mode
                (fun _ => I) (fun _ _ _ _ _ => I) entry_lt_any pq Hne
                (heap_inv_any pq) Hm)
      as (e & pq1 & E & _ & Hm1 & Hp & _).
    eauto.
  - destruct pq as [|e [|e' pq]]; try discriminate.
    exists e, []. rewrite heappop_single. auto.
Qed.

Lemma push_any pq e :
  Forall has_mode pq -> has_mode e ->
  exists pq',
    heappush entry_lt pq e = Ok pq' /\ Forall has_mode pq' /\
    Permutation pq' (e :: pq).
Proof.
  intros Hm He.
  destruct (heappush_ok entry_eq_dec entry_lt any_order has_mode
              (fun _ => I) (fun _ _ _ _ _ => I) entry_lt_any pq e
              (heap_inv_any pq) Hm He)
    as (pq' & E & _ & Hm' & Hp).
  eauto.
Qed.

(** Only the conversion of an [int] to a float makes an addition raise. *)
Lemma py_add_raises x y e : py_add x y = Raise e -> e = OverflowError.
Proof.
  destruct x as [a|f], y as [b|g]; simpl; try discriminate;
    unfold float_of_int;
    match goal with
    | |- context [binary_normalize ?p ?m ?z ?k ?s] =>
        destruct (binary_normalize p m z k s)
    end; simpl; congruence.
Qed.

Lemma new_acc_of_raises metric tp a pm p e :
  valid_metric metric ->
  new_acc_of metric tp a pm p = Raise e -> e = OverflowError.
Proof.
  intros Hm. rewrite new_acc_of_valid by assumption.
  destruct (py_add a (edge_weight metric p)) as [s|e'] eqn:E1; cbn [bind].
  - apply py_add_raises.
  - intros E. inversion E; subst. eapply py_add_raises; eauto.
Qed.

(** Adding a float to the [int] 0 or to a float gives a float. *)
Lemma py_add_float a w :
  a = PInt 0 \/ is_float a -> is_float w ->
  exists s, py_add a w = Ok s /\ is_float s.
Proof.
  intros [-> |Ha] Hw; destruct w as [|g]; try contradiction.
  - eexists. split; [reflexivity | exact I].
  - destruct a as [|f]; [contradiction|].
    eexists. split; [reflexivity | exact I].
Qed.

Lemma py_add_float_r s c :
  is_float s -> c = PInt 0 \/ is_float c ->
  exists r, py_add s c = Ok r /\ is_float r.
Proof.
  intros Hs [-> |Hc]; destruct s as [|f]; try contradiction.
  - eexists. split; [reflexivity | exact I].
  - destruct c as [|g]; [contradiction|].
    eexists. split; [reflexivity | exact I].
Qed.

Section Soundness.
Variable kb : KnowledgeBase.
Variables start goal metric : string.
Variable tp : pynum.
(** The numbers the accumulated values stay among, and the exceptions
    an addition may raise on them. *)
Variable good : pynum -> Prop.
Variable allowed : exn -> Prop.
Hypothesis good_step : forall a pm u v p,
  good a -> In ((u, v), p) (edges kb) ->
  match new_acc_of metric tp a pm p with
  | Ok c => good c
  | Raise e => allowed e
  end.

Local Abbreviation route' := (route kb metric tp start).

Local Abbreviation sound_item e :=
  (good (acc e) /\ route' (path e) (node e) (prev_mode e) (acc e)).

Lemma expand_sound a pm nodes u ns : forall pq,
  good a -> route' nodes u pm a ->
  (forall x p, In (x, p) ns -> In ((u, x), p) (edges kb)) ->
  Forall has_mode pq -> (forall e, In e pq -> sound_item e) ->
  match expand ns metric tp a pm nodes pq with
  | Ok pq' => Forall has_mode pq' /\ forall e, In e pq' -> sound_item e
  | Raise e => allowed e
  end.
Proof.
  induction ns as [|[x p] ns IH]; intros pq Ha Hr Hns Hm Hs.
  - simpl. auto.
  - cbn [expand].
    assert (Hin : In ((u, x), p) (edges kb)) by (apply Hns; now left).
    pose proof (good_step a pm u x p Ha Hin) as Hstep.
    destruct (new_acc_of metric tp a pm p) as [c|e] eqn:E; cbn [bind];
      [|exact Hstep].
    destruct (push_any pq (mkEntry c x (Some (mode p)) (nodes ++ [x])) Hm)
      as (pq1 & -> & Hm1 & Hp1); [discriminate|].
    cbn [bind]. apply IH; auto.
    + intros y q Hy. apply Hns. now right.
    + intros e He. apply (Permutation_in _ Hp1) in He.
      destruct He as [<-|He]; [|auto].
      split; [exact Hstep|]. simpl.
      apply (route_step kb metric tp start nodes u pm a x p); auto.
Qed.

(** The loop, however many iterations it is given: what it raises is an
    allowed exception, and what it returns is the no-route result or a
    route to [goal] with its accumulated value. *)
Lemma dijkstra_loop_sound fuel : forall pq visited,
  Forall has_mode pq \/ List.length pq = 1%nat ->
  (forall e, In e pq -> sound_item e) ->
  match fst (dijkstra_loop fuel kb goal metric tp pq visited) with
  | Raised e => allowed e
  | OutOfFuel => True
  | Returned None t => t = py_inf
  | Returned (Some nodes) t =>
      good t /\ exists pm, route' nodes goal pm t
  end.
Proof.
  induction fuel as [|fuel IH]; intros pq visited Hmodes Hs; [exact I|].
  destruct pq as [|e0 pq0]; [reflexivity|].
  destruct (pop_any (e0 :: pq0)) as (e & pq1 & Epop & Hm1 & Hp);
    [discriminate | exact Hmodes |].
  cbn [dijkstra_loop]. rewrite Epop.
  assert (He : sound_item e).
  { apply Hs. apply (Permutation_in _ (Permutation_sym Hp)). now left. }
  assert (Hs1 : forall e', In e' pq1 -> sound_item e').
  { intros e' He'. apply Hs.
    apply (Permutation_in _ (Permutation_sym Hp)). now right. }
  destruct He as [Hg Hr].
  destruct (String.eqb_spec (node e) goal) as [Eg|Eg].
  - simpl. split; [exact Hg|]. exists (prev_mode e). rewrite <- Eg. exact Hr.
  - destruct (seen_better (node e, prev_mode e) (acc e) visited).
    + apply IH; auto.
    + unfold neighbors. cbn [edges].
      pose proof (expand_sound (acc e) (prev_mode e) (path e) (node e)
                    (neighbors_of (edges kb) (node e)) pq1 Hg Hr
                    (fun x p H => proj1 (neighbors_of_In _ _ _ _) H)
                    Hm1 Hs1) as Hexp.
      destruct (expand _ metric tp (acc e) (prev_mode e) (path e) pq1)
        as [pq2|x]; [|exact Hexp].
      destruct Hexp as [Hm2 Hs2]. apply IH; auto.
Qed.

Lemma dijkstra_run_sound fuel :
  good (PInt 0) ->
  match fst (dijkstra fuel kb start goal metric tp) with
  | Raised e => allowed e
  | OutOfFuel => True
  | Returned None t => t = py_inf
  | Returned (Some nodes) t =>
      good t /\ exists pm, route' nodes goal pm t
  end.
Proof.
  intros H0. apply dijkstra_loop_sound; [now right|].
  intros e [<-|[]]. split; [exact H0 | constructor].
Qed.
End Soundness.

(** The three settings of the numbers: any numbers, where only
    [OverflowError] may be raised; [int]s, and floats, where nothing is. *)
Lemma any_step kb metric tp :
  valid_metric metric ->
  forall a pm (u v : string) p,
    True -> In ((u, v), p) (edges kb) ->
    match new_acc_of metric tp a pm p with
    | Ok c => True
    | Raise e => e = OverflowError
    end.
Proof.
  intros Hm a pm u v p _ _.
  destruct (new_acc_of metric tp a pm p) eqn:E; [exact I|].
  eapply new_acc_of_raises; eauto.
Qed.

Lemma int_step kb metric tp :
  valid_metric metric -> int_weights kb metric -> is_int tp ->
  forall a pm (u v : string) p,
    is_int a -> In ((u, v), p) (edges kb) ->
    match new_acc_of metric tp a pm p with
    | Ok c => is_int c
    | Raise e => False
    end.
Proof.
  intros Hm Hw Htp a pm u v p Ha Hin.
  rewrite new_acc_of_int; auto.
  - exact I.
  - exact (Hw _ _ Hin).
  - destruct (penalty_of_cases tp pm (mode p)) as [-> | ->];
      [exact Htp | exact I].
Qed.

Lemma float_step kb metric tp :
  valid_metric metric -> float_weights kb metric -> is_float tp ->
  forall a pm (u v : string) p,
    a = PInt 0 \/ is_float a -> In ((u, v), p) (edges kb) ->
    match new_acc_of metric tp a pm p with
    | Ok c => c = PInt 0 \/ is_float c
    | Raise e => False
    end.
Proof.
  intros Hm Hw Htp a pm u v p Ha Hin.
  rewrite new_acc_of_valid by assumption.
  destruct (py_add_float a (edge_weight metric p) Ha (Hw _ _ Hin))
    as (s & -> & Hs).
  cbn [bind].
  destruct (py_add_float_r s (penalty_of tp pm (mode p)) Hs)
    as (r & -> & Hr).
  - destruct (penalty_of_cases tp pm (mode p)) as [-> | ->]; auto.
  - now right.
Qed.

(** X14: Whatever the numbers, negative ones included, and however many
    iterations are allowed: with metric time or cost the only exception
    [dijkstra] can raise is the [OverflowError] of an [int] too large
    for a float, and a path it returns starts at [start], ends at [goal],
    follows edges of the knowledge base, and comes with the value
    accumulated along it. When weights and penalty are all [int]s, or all
    floats, it raises nothing. *)
Theorem dijkstra_sound (fuel : nat) (kb : KnowledgeBase)
    (start goal metric : string) (tp : pynum) :
  valid_metric metric ->
  sound_outcome kb start goal metric tp
    (fst (dijkstra fuel kb start goal metric tp)) /\
  ((int_weights kb metric /\ is_int tp) \/
   (float_weights kb metric /\ is_float tp) ->
   forall e, fst (dijkstra fuel kb start goal metric tp) <> Raised e).
Proof.
  intros Hm. split.
  - pose proof (dijkstra_run_sound kb start goal metric tp
                  (fun _ => True) (fun e => e = OverflowError)
                  (any_step kb metric tp Hm) fuel I) as H.
    unfold sound_outcome.
    destruct (fst (dijkstra fuel kb start goal metric tp))
      as [[nodes|] t|e|]; auto.
    destruct H as (_ & pm & Hr).
    destruct (route_walk _ _ _ _ _ _ _ _ Hr) as (es & Hw & _ & Hc).
    destruct (walk_ends _ _ _ _ _ Hw) as [Hh Hl].
    exists es. auto.
  - intros [[Hw Htp]|[Hw Htp]] e E.
    + pose proof (dijkstra_run_sound kb start goal metric tp
                    is_int (fun _ => False)
                    (int_step kb metric tp Hm Hw Htp) fuel I) as H.
      rewrite E in H. exact H.
    + pose proof (dijkstra_run_sound kb start goal metric tp
                    (fun a => a = PInt 0 \/ is_float a) (fun _ => False)
                    (float_step kb metric tp Hm Hw Htp) fuel
                    (or_introl eq_refl)) as H.
      rewrite E in H. exact H.
Qed.

(** The costs of the seeded network are floats. *)
Lemma seed_cost_floats : float_weights seed_kb "cost".
Proof.
  intros k p Hin. vm_compute in Hin.
  repeat (destruct Hin as [E|Hin]; [inversion E; subst; exact I|]).
  contradiction.
Defined.

Lemma dijkstra_sound_witness :
  (float_weights seed_kb "cost" /\ is_float (fl 2 1)) /\
  sound_outcome seed_kb "A" "D" "cost" (fl 2 1)
    (fst (dijkstra 60 seed_kb "A" "D" "cost" (fl 2 1))) /\
  ((int_weights seed_kb "cost" /\ is_int (fl 2 1)) \/
   (float_weights seed_kb "cost" /\ is_float (fl 2 1)) ->
   forall e, fst (dijkstra 60 seed_kb "A" "D" "cost" (fl 2 1)) <> Raised e).
Proof.
  split; [split; [exact seed_cost_floats | exact I]|].
  apply (dijkstra_sound 60 seed_kb "A" "D" "cost" (fl 2 1)).
  right. reflexivity.
Defined.

(** X15: On [int] weights that are not negative, with such a penalty, the
    search is optimal for the charged cost: between connected stations it
    returns a walk from [start] to [goal] whose weights plus penalties are
    its total, and no walk between them costs less. *)
Theorem dijkstra_cheapest (kb : KnowledgeBase) (start goal metric : string)
    (tp : pynum) (extra : nat) :
  valid_metric metric -> nonneg_int_weights kb metric -> nonneg_int tp ->
  reachable kb start goal ->
  exists nodes es c,
    dijkstra (fuel_bound kb + extra) kb start goal metric tp =
      (Returned (Some nodes) (PInt c), kb) /\
    walk kb start nodes goal es /\
    charged metric tp es = Ok (PInt c) /\ c = path_cost metric tp es /\
    forall nodes' es', walk kb start nodes' goal es' ->
                       charged metric tp es' =
                         Ok (PInt (path_cost metric tp es')) /\
                       c <= path_cost metric tp es'.
Proof.
  intros Hm Hw Htp Hreach.
  pose proof (nonneg_int_penalty kb tp Htp) as Hpen.
  destruct (dijkstra_walks kb start goal metric tp Hm Hw Hpen extra)
    as [(nodes & es & E & Hwk & Hopt)|[_ Hun]]; [|contradiction].
  exists nodes, es, (path_cost metric tp es).
  split; [exact E|]. split; [exact Hwk|].
  split; [eapply walk_charged; eauto|]. split; [reflexivity|].
  intros nodes' es' Hw'. split; [eapply walk_charged; eauto|].
  apply (Hopt _ _ Hw').
Qed.

(** The seeded facts closed under symmetry, before any transfer is added:
    their times are [int]s. *)
Lemma seed_lines_time : nonneg_int_weights (make_bidirectional seed_facts) "time".
Proof.
  intros k p Hin. vm_compute in Hin.
  repeat (destruct Hin as [E|Hin];
          [inversion E; subst; vm_compute; discriminate|]).
  contradiction.
Defined.

Lemma seed_lines_A_D : reachable (make_bidirectional seed_facts) "A" "D".
Proof.
  apply reach_step with "C";
    [apply reach_step with "B"; [apply reach_step with "A"; [constructor|]|]|];
    vm_compute; tauto.
Defined.

Lemma dijkstra_cheapest_witness :
  exists nodes es c,
    dijkstra (fuel_bound (make_bidirectional seed_facts) + 0)
      (make_bidirectional seed_facts) "A" "D" "time" (PInt 2) =
      (Returned (Some nodes) (PInt c), make_bidirectional seed_facts) /\
    walk (make_bidirectional seed_facts) "A" nodes "D" es /\
    charged "time" (PInt 2) es = Ok (PInt c) /\
    c = path_cost "time" (PInt 2) es /\
    forall nodes' es',
      walk (make_bidirectional seed_facts) "A" nodes' "D" es' ->
      charged "time" (PInt 2) es' =
        Ok (PInt (path_cost "time" (PInt 2) es')) /\
      c <= path_cost "time" (PInt 2) es'.
Proof.
  apply (dijkstra_cheapest (make_bidirectional seed_facts) "A" "D" "time"
           (PInt 2) 0).
  - left. reflexivity.
  - exact seed_lines_time.
  - vm_compute. discriminate.
  - exact seed_lines_A_D.
Defined.

(** X16: When all edges carry the same mode no penalty is ever charged: for
    any transfer penalty, the default 2.0 included, the total returned on
    [int] weights that are not negative is the plain shortest-path
    distance. *)
Theorem dijkstra_uniform_any_penalty (kb : KnowledgeBase)
    (start goal metric : string) (tp : pynum) (extra : nat) :
  valid_metric metric -> nonneg_int_weights kb metric ->
  uniform_mode kb -> reachable kb start goal ->
  exists nodes d,
    dijkstra (fuel_bound kb + extra) kb start goal metric tp =
      (Returned (Some nodes) (PInt d), kb) /\
    shortest_distance kb metric start goal (inject_Z d).
Proof.
  intros Hm Hw Hu Hreach.
  destruct (dijkstra_plain_shortest kb start goal metric tp Hm Hw
              (uniform_mode_penalties kb tp Hu) extra)
    as (nodes & d & E & _ & Hd); auto.
  - intros nodes v es Hwk. eapply walk_uniform_cost; eauto.
  - eauto.
Qed.

Lemma dijkstra_uniform_any_penalty_witness :
  exists nodes d,
    dijkstra (fuel_bound metro_kb + 0) metro_kb "A" "C" "time" (fl 2 1) =
      (Returned (Some nodes) (PInt d), metro_kb) /\
    shortest_distance metro_kb "time" "A" "C" (inject_Z d).
Proof.
  apply (dijkstra_uniform_any_penalty metro_kb "A" "C" "time" (fl 2 1) 0).
  - left. reflexivity.
  - exact metro_time.
  - exact metro_uniform.
  - exact metro_A_C.
Defined.

(** X17: A goal that no edge leads to is never reached: from any other start
    the search returns the no-route result, on [int] weights that are not
    negative and with such a penalty. *)
Theorem dijkstra_no_inbound (kb : KnowledgeBase) (start goal metric : string)
    (tp : pynum) (extra : nat) :
  valid_metric metric -> nonneg_int_weights kb metric -> nonneg_int tp ->
  start <> goal ->
  (forall u, ~ In (u, goal) (keys (edges kb))) ->
  dijkstra (fuel_bound kb + extra) kb start goal metric tp =
  (Returned None py_inf, kb).
Proof.
  intros Hm Hw Htp Hne Hin.
  destruct (dijkstra_walks kb start goal metric tp Hm Hw
              (nonneg_int_penalty kb tp Htp) extra)
    as [(nodes & es & _ & Hwk & _)|[E _]]; [|exact E].
  exfalso.
  inversion Hwk as [E|ns u es' v p Hw' Hk]; subst.
  - congruence.
  - apply (Hin u). apply (in_map fst) in Hk. exact Hk.
Qed.

Lemma dijkstra_no_inbound_witness :
  dijkstra (fuel_bound metro_kb + 0) metro_kb "A" "Z" "time" (PInt 2) =
  (Returned None py_inf, metro_kb).
Proof.
  apply (dijkstra_no_inbound metro_kb "A" "Z" "time" (PInt 2) 0).
  - left. reflexivity.
  - exact metro_time.
  - vm_compute. discriminate.
  - discriminate.
  - intros u Hin. vm_compute in Hin.
    repeat (destruct Hin as [E|Hin]; [inversion E|]). contradiction.
Defined.

(** X18: A metric that is no key of the edge attributes: the first edge
    examined raises [KeyError], and the metric ["mode"] raises
    [TypeError] when its string is added to the accumulated value. This
    happens at the first iteration, as soon as [start] is not the goal and
    has an outgoing edge. *)
Theorem dijkstra_bad_metric (fuel : nat) (kb : KnowledgeBase)
    (start goal metric : string) (tp : pynum) :
  metric <> "time" -> metric <> "cost" ->
  start <> goal -> neighbors_of (edges kb) start <> [] ->
  dijkstra (S fuel) kb start goal metric tp =
  (Raised (if String.eqb metric "mode" then TypeError else KeyError), kb).
Proof.
  intros Ht Hc Hne Hn. unfold dijkstra. cbn [dijkstra_loop].
  rewrite heappop_single. cbn [node prev_mode acc path].
  rewrite (proj2 (String.eqb_neq start goal) Hne).
  unfold seen_better. cbn [dict_get]. unfold neighbors. cbn [edges].
  destruct (neighbors_of (edges kb) start) as [|[x p] ns]; [congruence|].
  cbn [expand]. unfold new_acc_of, props_getitem.
  rewrite (proj2 (String.eqb_neq metric "time") Ht).
  rewrite (proj2 (String.eqb_neq metric "cost") Hc).
  destruct (String.eqb metric "mode"); reflexivity.
Qed.

Lemma dijkstra_bad_metric_witness :
  dijkstra 1 seed_kb "A" "D" "precio" (fl 2 1) =
  (Raised (if String.eqb "precio" "mode" then TypeError else KeyError),
   seed_kb).
Proof.
  apply (dijkstra_bad_metric 0 seed_kb "A" "D" "precio" (fl 2 1));
    discriminate.
Defined.

(** X19: A start without outgoing edges, a name absent from the knowledge
    base included: the search returns the no-route result after two
    iterations, whatever the metric string and the penalty. *)
Theorem dijkstra_dead_end (extra : nat) (kb : KnowledgeBase)
    (start goal metric : string) (tp : pynum) :
  start <> goal -> neighbors_of (edges kb) start = [] ->
  dijkstra (2 + extra) kb start goal metric tp = (Returned None py_inf, kb).
Proof.
  intros Hne Hn. unfold dijkstra. cbn [Nat.add dijkstra_loop].
  rewrite heappop_single. cbn [node prev_mode acc path].
  rewrite (proj2 (String.eqb_neq start goal) Hne).
  unfold seen_better. cbn [dict_get]. unfold neighbors. cbn [edges].
  rewrite Hn. reflexivity.
Qed.

Lemma dijkstra_dead_end_witness :
  dijkstra (2 + 0) seed_kb "Z" "A" "precio" (fl 2 1) =
  (Returned None py_inf, seed_kb).
Proof.
  apply (dijkstra_dead_end 0 seed_kb "Z" "A" "precio" (fl 2 1)).
  - discriminate.
  - reflexivity.
Defined.

(** X20: The queue discipline the search relies on: on a heap of items that
    all have a previous mode and an [int] as accumulated value, a push
    followed by a pop raises nothing and hands back an item with the
    least accumulated value among the pushed item and the items of the
    heap; the heap left holds the others. *)
Theorem queue_push_pop (pq : list entry) (e : entry) :
  heap_inv le_acc pq -> Forall int_item pq -> int_item e ->
  exists pq1 x pq2,
    heappush entry_lt pq e = Ok pq1 /\
    heappop entry_lt pq1 = Ok (x, pq2) /\
    Permutation (e :: pq) (x :: pq2) /\
    heap_inv le_acc pq2 /\
    py_leb (acc x) (acc e) = true /\
    Forall (fun y => py_leb (acc x) (acc y) = true) pq.
Proof.
  intros Hh Hm He.
  destruct (push_ok pq e Hh Hm He) as (pq1 & E1 & Hh1 & Hm1 & Hp1).
  destruct (pop_ok pq1) as (x & pq2 & E2 & Hh2 & Hm2 & Hp2 & Hmin).
  { intros ->. apply Permutation_nil in Hp1. discriminate. }
  { exact Hh1. }
  { now left. }
  exists pq1, x, pq2. split; [exact E1|]. split; [exact E2|].
  assert (Hp : Permutation (e :: pq) (x :: pq2)).
  { rewrite <- Hp1. exact Hp2. }
  split; [exact Hp|]. split; [exact Hh2|].
  assert (Hitems : forall y, In y (e :: pq) -> int_item y).
  { intros y [<-|Hy]; [exact He|].
    apply (proj1 (Forall_forall _ _) Hm). exact Hy. }
  assert (Hx : int_item x).
  { apply Hitems. apply (Permutation_in _ (Permutation_sym Hp)). now left. }
  assert (Hall : forall y, In y (e :: pq) -> py_leb (acc x) (acc y) = true).
  { intros y Hy.
    rewrite (is_int_PInt _ (proj2 Hx)), (is_int_PInt _ (proj2 (Hitems y Hy))).
    rewrite py_leb_int. apply Z.leb_le.
    apply (Permutation_in _ Hp) in Hy.
    destruct Hy as [<-|Hy]; [lia|].
    apply (proj1 (Forall_forall _ _) Hmin y Hy). }
  split; [apply Hall; now left|].
  apply Forall_forall. intros y Hy. apply Hall. now right.
Qed.

Lemma queue_push_pop_witness :
  exists pq1 x pq2,
    heappush entry_lt [mkEntry (PInt 4) "B" (Some "metro") ["A"; "B"]]
      (mkEntry (PInt 3) "P1" (Some "walk") ["A"; "P1"]) = Ok pq1 /\
    heappop entry_lt pq1 = Ok (x, pq2) /\
    Permutation
      [mkEntry (PInt 3) "P1" (Some "walk") ["A"; "P1"];
       mkEntry (PInt 4) "B" (Some "metro") ["A"; "B"]] (x :: pq2) /\
    heap_inv le_acc pq2 /\
    py_leb (acc x) (PInt 3) = true /\
    Forall (fun y => py_leb (acc x) (acc y) = true)
      [mkEntry (PInt 4) "B" (Some "metro") ["A"; "B"]].
Proof.
  apply (queue_push_pop [mkEntry (PInt 4) "B" (Some "metro") ["A"; "B"]]
           (mkEntry (PInt 3) "P1" (Some "walk") ["A"; "P1"])).
  - apply heap_inv_single.
  - constructor; [split; [discriminate | exact I] | constructor].
  - split; [discriminate | exact I].
Defined.
(** * Option 2 of the menu *)

Lemma existsb_eqb_In s l : existsb (String.eqb s) l = true <-> In s l.
Proof.
  rewrite existsb_exists. split.
  - intros (x & Hx & E). apply String.eqb_eq in E. now subst.
  - intros Hin. exists s. split; [exact Hin | apply String.eqb_refl].
Qed.

(** X21: Option 2 answers "invalid station" exactly when one of the two
    names is not an end of any edge, and it calls [dijkstra] only with
    metric time or cost. So the only exception of the search it can let
    through is the [OverflowError] of an [int] weight too large for the
    float penalty, and it lets none through when the weights under the
    metric are floats, as those typed in option 1 are. *)
Theorem menu_query_checks (fuel : nat) (kb : KnowledgeBase)
    (origen destino metric : string) :
  (forall e, menu_query fuel kb origen destino metric = Excepcion e ->
             e = OverflowError) /\
  (float_weights kb metric ->
   forall e, menu_query fuel kb origen destino metric <> Excepcion e) /\
  (menu_query fuel kb origen destino metric = EstacionInvalida <->
   ~ (In origen (station_names kb) /\ In destino (station_names kb))) /\
  (menu_query fuel kb origen destino metric = MetricaInvalida ->
   metric <> "time" /\ metric <> "cost").
Proof.
  unfold menu_query, estaciones.
  destruct (existsb (String.eqb origen) (sorted_set (station_names kb)))
    eqn:Eo;
    destruct (existsb (String.eqb destino) (sorted_set (station_names kb)))
      eqn:Ed; cbn [negb orb];
    try (split; [discriminate|]; split; [discriminate|]; split; [|discriminate];
         split; [intros _|reflexivity]; intros [Ho Hd];
         apply sorted_set_In, existsb_eqb_In in Ho;
         apply sorted_set_In, existsb_eqb_In in Hd; congruence).
  rewrite existsb_eqb_In, sorted_set_In in Eo.
  rewrite existsb_eqb_In, sorted_set_In in Ed.
  destruct (String.eqb_spec metric "time") as [Ht|Ht];
    destruct (String.eqb_spec metric "cost") as [Hc|Hc]; cbn [negb orb];
    try (split; [discriminate|]; split; [discriminate|]; split; [|tauto];
         split; [discriminate | tauto]).
  all: assert (Hm : valid_metric metric) by (unfold valid_metric; tauto).
  all: pose proof (dijkstra_run_sound kb origen destino metric (fl 2 1)
                     (fun _ => True) (fun e => e = OverflowError)
                     (any_step kb metric (fl 2 1) Hm) fuel I) as Hs.
  all: pose proof (fun Hw : float_weights kb metric =>
                     dijkstra_run_sound kb origen destino metric (fl 2 1)
                       (fun a => a = PInt 0 \/ is_float a) (fun _ => False)
                       (float_step kb metric (fl 2 1) Hm Hw I) fuel
                       (or_introl eq_refl)) as Hf.
  all: destruct (fst (dijkstra fuel kb origen destino metric (fl 2 1)))
         as [[[|n r]|] t|e|].
  all: try (split; [discriminate|]; split; [discriminate|];
            split; [|discriminate]; split; [discriminate | tauto]).
  all: split; [intros e' E; congruence|].
  all: split; [intros Hw e' E; exact (Hf Hw)|].
  all: split; [|discriminate]; split; [discriminate | tauto].
Qed.

Lemma menu_query_checks_witness :
  float_weights seed_kb "cost" /\
  (forall e, menu_query 60 seed_kb "A" "D" "cost" = Excepcion e ->
             e = OverflowError) /\
  (float_weights seed_kb "cost" ->
   forall e, menu_query 60 seed_kb "A" "D" "cost" <> Excepcion e) /\
  (menu_query 60 seed_kb "A" "D" "cost" = EstacionInvalida <->
   ~ (In "A" (station_names seed_kb) /\ In "D" (station_names seed_kb))) /\
  (menu_query 60 seed_kb "A" "D" "cost" = MetricaInvalida ->
   "cost" <> "time" /\ "cost" <> "cost").
Proof.
  split; [exact seed_cost_floats|].
  apply (menu_query_checks 60 seed_kb "A" "D" "cost").
Defined.



(** X23: The arithmetic of the search is the machine's. With costs 0.1,
    0.2 and 0.3 the direct edge A-D wins, because [0.1 + 0.2] rounds above
    0.3; an [int] beyond 2**53 loses its low bits when the float penalty
    is added; on the seeded network the cheapest route from A to D by
    cost walks through four transfers of cost 0.0 and pays one penalty,
    for a total of 3.0; and a station "Z" that is not in the seeded
    network gets the no-route result under both metrics, after 71
    iterations. *)
Theorem float_arithmetic_examples (extra : nat) :
  (s <- py_add (fl 1 10) (fl 2 10) ;; Ok (py_ltb (fl 3 10) s)) = Ok true /\
  fst (dijkstra (4 + extra) decimal_kb "A" "D" "cost" (fl 2 1)) =
    Returned (Some ["A"; "D"]) (fl 3 10) /\
  (s <- py_add (PInt (2 ^ 64)) (PInt 1) ;; py_add s (fl 2 1)) =
    Ok (fl (2 ^ 64) 1) /\
  fst (dijkstra (21 + extra) seed_kb "A" "D" "cost" (fl 2 1)) =
    Returned (Some ["A"; "P1"; "C"; "Centro"; "P2"; "D"]) (fl 3 1) /\
  fst (dijkstra (71 + extra) seed_kb "A" "Z" "time" (fl 2 1)) =
    Returned None py_inf /\
  fst (dijkstra (71 + extra) seed_kb "A" "Z" "cost" (fl 2 1)) =
    Returned None py_inf.
Proof.
  assert (Hrun : forall n kb start goal metric o,
            fst (dijkstra n kb start goal metric (fl 2 1)) = o ->
            o <> OutOfFuel ->
            fst (dijkstra (n + extra) kb start goal metric (fl 2 1)) = o).
  { intros n kb start goal metric o E Ho. unfold dijkstra in *.
    rewrite dijkstra_loop_more_fuel; [exact E|]. rewrite E. exact Ho. }
  split; [|split; [|split; [|split; [|split]]]].
  - vm_compute. reflexivity.
  - apply Hrun; [vm_compute; reflexivity | discriminate].
  - vm_compute. reflexivity.
  - apply Hrun; [vm_compute; reflexivity | discriminate].
  - apply Hrun; [vm_compute; reflexivity | discriminate].
  - apply Hrun; [vm_compute; reflexivity | discriminate].
Qed.
